(** * Grafos_II_DFS: a fixed-capacity graph with adjacency lists and the
      depth-first traversal [dfs_topol] of [main.c]

    The development embeds [main.c] function by function.  C [int]s are
    integers of [Z]: the program performs no arithmetic on keys and indices,
    and the counters it increments ([i], [*pTiempo]) are bounded by the
    number of vertices.  A [Vertex*] into [g->vertices] is the index of the
    slot it points to, and the graph is passed along explicitly, so that
    every write through a pointer is a write to the one shared vertex array;
    the cursor of an adjacency list lives in that array too, and the
    neighbor loop reads it back at every turn.  The time counter [*pTiempo]
    and the one queue of a traversal are shared by all its visits and are
    threaded through them; the pointers by which the program names that
    queue are values of their own ([QueuePtr]), since the program passes
    both the queue and addresses of variables that point to it.  Failed
    assertions, accesses outside an object and broken queue preconditions
    end a run with an [error]; a run of the traversal ([run]) also tells in
    which state it left the vertex array, which belongs to the caller.  The
    traces that [DBG_PRINT] writes to the error stream are left out. *)

From Stdlib Require Import ZArith List Lia Bool.
From Stdlib Require Import Floats.PrimFloat.
Import ListNotations.
Open Scope Z_scope.

(** ** Runs that may stop early *)

Inductive error : Set :=
| AssertionFailed   (* an [assert] of the program does not hold *)
| InvalidAccess     (* an access outside the object meant, or through NULL *)
| QueueFull         (* [Queue_Enqueue] on a full queue *)
| QueueEmpty        (* [Queue_Dequeue] on an empty queue *)
| OutOfFuel.        (* the recursion bound of the embedding was reached *)

Inductive outcome (A : Type) : Type :=
| Ok (a : A)
| Err (e : error).
Arguments Ok {A} a.
Arguments Err {A} e.

Definition bind {A B : Type} (m : outcome A) (k : A -> outcome B) : outcome B :=
  match m with
  | Ok a => k a
  | Err e => Err e
  end.

Notation "x <- m ;; k" := (bind m (fun x => k))
  (at level 61, m at next level, right associativity).
Notation "' pat <- m ;; k" := (bind m (fun x => match x with pat => k end))
  (at level 61, pat pattern, m at next level, right associativity).

Definition assert (b : bool) : outcome unit :=
  if b then Ok tt else Err AssertionFailed.

(** ** Adjacency list ([List.h]) *)

(** Modelled from the spec: [List.h] is not part of the sources.  An
    AdjacencyEntry is a pair of a neighbor index and a weight; the program
    reads its field [index]. *)
Record Data : Set := { index : Z; weight : float }.

(** Modelled from the spec: the AdjacencyList of [List.h], an ordered
    sequence of entries with one movable read cursor (a position; the list is
    at its end when the position is past the last entry). *)
Record List : Set := { items : list Data; cursor : nat }.

(** Modelled from the spec: [create()] of [List.h] gives the empty list.
    Allocation is taken to succeed. *)
Definition List_New : option List := Some {| items := []; cursor := 0%nat |}.

(** Modelled from the spec: the back insertion of [List.h], which appends
    one entry. *)
Definition List_Push_back (l : List) (idx : Z) (w : float) : List :=
  {| items := items l ++ [{| index := idx; weight := w |}]; cursor := cursor l |}.

(** Modelled from the spec: [contains] of [List.h], a linear scan for
    equality on the neighbor index. *)
Definition List_Find (l : List) (idx : Z) : bool :=
  existsb (fun d => index d =? idx) (items l).

(** Modelled from the spec: [cursorReset] of [List.h] points the cursor to
    the first entry, or to the end if the list is empty. *)
Definition List_Cursor_front (l : List) : List :=
  {| items := items l; cursor := 0%nat |}.

(** Modelled from the spec: [cursorAtEnd] of [List.h]. *)
Definition List_Cursor_end (l : List) : bool :=
  (length (items l) <=? cursor l)%nat.

(** Modelled from the spec: [cursorAdvance] of [List.h], with the asserted
    precondition that the cursor is not at the end. *)
Definition List_Cursor_next (l : List) : outcome List :=
  _ <- assert (negb (List_Cursor_end l));;
  Ok {| items := items l; cursor := S (cursor l) |}.

(** Modelled from the spec: [cursorCurrent] of [List.h], the entry at the
    cursor, which must not be at the end. *)
Definition List_Cursor_get (l : List) : outcome Data :=
  match nth_error (items l) (cursor l) with
  | Some d => Ok d
  | None => Err AssertionFailed
  end.

(** ** Bounded queue ([Queue.h]) *)

(** Modelled from the spec: the bounded FIFO queue of [Queue.h], the stored
    integers from head to tail and the fixed capacity. *)
Record Queue : Set := { q_items : list Z; q_capacity : Z }.

(** Modelled from the spec: [create(capacity)] of [Queue.h] gives an empty
    queue of that capacity. *)
Definition Queue_New (capacity : Z) : Queue :=
  {| q_items := []; q_capacity := capacity |}.

(** Modelled from the spec: [length(queue)] of [Queue.h], the current count
    of stored elements. *)
Definition Queue_Len (q : Queue) : Z := Z.of_nat (length (q_items q)).

(** Modelled from the spec: [enqueue] of [Queue.h] appends at the tail; on
    a full queue the precondition is violated and the run has no defined
    continuation. *)
Definition Queue_Enqueue (q : Queue) (val : Z) : outcome Queue :=
  if Queue_Len q <? q_capacity q
  then Ok {| q_items := q_items q ++ [val]; q_capacity := q_capacity q |}
  else Err QueueFull.

(** Modelled from the spec: [dequeue] of [Queue.h] removes and returns the
    head value; the queue must not be empty. *)
Definition Queue_Dequeue (q : Queue) : outcome (Z * Queue) :=
  match q_items q with
  | [] => Err QueueEmpty
  | x :: rest => Ok (x, {| q_items := rest; q_capacity := q_capacity q |})
  end.

(** ** Pointers to the queue *)

(** What the program passes where a [Queue*] is expected.  A traversal has
    one queue object, the one [Queue_New] returns; [ToQueue] is its address,
    the value of the variable [lista] of [dfs_topol].  [AddressOf p] is the
    address of a variable that holds the pointer [p], what [&lista] and
    [&listado] evaluate to. *)
Inductive QueuePtr : Set :=
| ToQueue
| AddressOf (p : QueuePtr).

(** Modelled from the spec: [enqueue(queue, value)] of [Queue.h] works on
    the queue it is handed.  [this] points to the queue object [q] of the
    traversal only when it is [ToQueue]; at the address of a pointer
    variable there is no queue, and the call is an access outside the
    object meant. *)
Definition Queue_Enqueue_at (this : QueuePtr) (q : Queue) (val : Z)
  : outcome Queue :=
  match this with
  | ToQueue => Queue_Enqueue q val
  | AddressOf _ => Err InvalidAccess
  end.

(** ** Vertices *)

Inductive eGraphColors : Set := WHITE | GRAY | BLACK.

Definition eGraphColors_eqb (a b : eGraphColors) : bool :=
  match a, b with
  | WHITE, WHITE | GRAY, GRAY | BLACK, BLACK => true
  | _, _ => false
  end.

Record Vertex : Set := {
  data : Z;
  neighbors : option List;
  distance : Z;
  predecessor : Z;
  color : eGraphColors;
  discovery_time : Z;
  finish_time : Z
}.

Definition Vertex_HasNeighbors (v : Vertex) : bool :=
  match neighbors v with Some _ => true | None => false end.

Definition set_neighbors (v : Vertex) (l : option List) : Vertex :=
  {| data := data v; neighbors := l; distance := distance v;
     predecessor := predecessor v; color := color v;
     discovery_time := discovery_time v; finish_time := finish_time v |}.

Definition Vertex_Start (v : Vertex) : outcome Vertex :=
  match neighbors v with
  | Some l => Ok (set_neighbors v (Some (List_Cursor_front l)))
  | None => Err InvalidAccess
  end.

Definition Vertex_Next (v : Vertex) : outcome Vertex :=
  match neighbors v with
  | Some l => l' <- List_Cursor_next l;; Ok (set_neighbors v (Some l'))
  | None => Err InvalidAccess
  end.

Definition Vertex_End (v : Vertex) : outcome bool :=
  match neighbors v with
  | Some l => Ok (List_Cursor_end l)
  | None => Err InvalidAccess
  end.

Definition Vertex_GetNeighborIndex (v : Vertex) : outcome Data :=
  match neighbors v with
  | Some l => List_Cursor_get l
  | None => Err InvalidAccess
  end.

Definition Vertex_SetColor (v : Vertex) (c : eGraphColors) : Vertex :=
  {| data := data v; neighbors := neighbors v; distance := distance v;
     predecessor := predecessor v; color := c;
     discovery_time := discovery_time v; finish_time := finish_time v |}.

Definition Vertex_GetColor (v : Vertex) : eGraphColors := color v.

Definition Vertex_GetData (v : Vertex) : Z := data v.

Definition Vertex_SetPredecessor (v : Vertex) (predecessor_idx : Z) : Vertex :=
  {| data := data v; neighbors := neighbors v; distance := distance v;
     predecessor := predecessor_idx; color := color v;
     discovery_time := discovery_time v; finish_time := finish_time v |}.

Definition Vertex_GetPredecessor (v : Vertex) : Z := predecessor v.

Definition Vertex_SetDiscovery_time (v : Vertex) (time : Z) : Vertex :=
  {| data := data v; neighbors := neighbors v; distance := distance v;
     predecessor := predecessor v; color := color v;
     discovery_time := time; finish_time := finish_time v |}.

Definition Vertex_GetDiscovery_time (v : Vertex) : Z := discovery_time v.

Definition Vertex_SetFinish_time (v : Vertex) (time : Z) : Vertex :=
  {| data := data v; neighbors := neighbors v; distance := distance v;
     predecessor := predecessor v; color := color v;
     discovery_time := discovery_time v; finish_time := time |}.

Definition Vertex_GetFinish_time (v : Vertex) : Z := finish_time v.

(** ** Graphs *)

Inductive eGraphType : Set := eGraphType_UNDIRECTED | eGraphType_DIRECTED.

Record Graph : Set := {
  vertices : list Vertex;
  size : Z;
  len : Z;
  type : eGraphType
}.

(** Reading and writing the slot a [Vertex*] points to. *)

Definition aload (vs : list Vertex) (p : Z) : outcome Vertex :=
  if p <? 0 then Err InvalidAccess
  else match nth_error vs (Z.to_nat p) with
       | Some x => Ok x
       | None => Err InvalidAccess
       end.

Fixpoint upd (vs : list Vertex) (n : nat) (x : Vertex) : list Vertex :=
  match vs, n with
  | [], _ => []
  | _ :: t, O => x :: t
  | h :: t, S n' => h :: upd t n' x
  end.

Definition load (g : Graph) (p : Z) : outcome Vertex := aload (vertices g) p.

Definition store (g : Graph) (p : Z) (x : Vertex) : Graph :=
  {| vertices := upd (vertices g) (Z.to_nat p) x;
     size := size g; len := len g; type := type g |}.

Definition modify (g : Graph) (p : Z) (f : Vertex -> Vertex) : outcome Graph :=
  x <- load g p;; Ok (store g p (f x)).

Definition modifyM (g : Graph) (p : Z) (f : Vertex -> outcome Vertex)
  : outcome Graph :=
  x <- load g p;; y <- f x;; Ok (store g p y).

(** [find]: the index of the first of the [size] slots whose data is [key],
    or -1. *)
Fixpoint find_loop (n : nat) (i : Z) (vs : list Vertex) (key : Z) : outcome Z :=
  match n with
  | O => Ok (-1)
  | S n' =>
      x <- aload vs i;;
      if data x =? key then Ok i else find_loop n' (i + 1) vs key
  end.

Definition find (vs : list Vertex) (size : Z) (key : Z) : outcome Z :=
  find_loop (Z.to_nat size) 0 vs key.

Definition find_neighbor (v : Vertex) (index : Z) : bool :=
  match neighbors v with
  | Some l => List_Find l index
  | None => false
  end.

Definition insert (vertex : Vertex) (index : Z) (weigth : float) : Vertex :=
  let vertex :=
    match neighbors vertex with
    | None => set_neighbors vertex List_New
    | Some _ => vertex
    end in
  match neighbors vertex with
  | Some l =>
      if negb (find_neighbor vertex index)
      then set_neighbors vertex (Some (List_Push_back l index weigth))
      else vertex
  | None => vertex
  end.

(** [calloc] gives slots whose every field is zero: data 0, no list, color
    [WHITE] (the first enumerator). *)
Definition zero_vertex : Vertex :=
  {| data := 0; neighbors := None; distance := 0; predecessor := 0;
     color := WHITE; discovery_time := 0; finish_time := 0 |}.

(** Allocation is taken to succeed. *)
Definition Graph_New (size : Z) (type : eGraphType) : outcome Graph :=
  _ <- assert (0 <? size);;
  Ok {| vertices := repeat zero_vertex (Z.to_nat size);
        size := size; len := 0; type := type |}.

Definition Graph_AddVertex (g : Graph) (d : Z) : outcome Graph :=
  _ <- assert (len g <? size g);;
  x <- load g (len g);;
  let x := {| data := d; neighbors := None; distance := distance x;
              predecessor := predecessor x; color := color x;
              discovery_time := discovery_time x;
              finish_time := finish_time x |} in
  let g := store g (len g) x in
  Ok {| vertices := vertices g; size := size g; len := len g + 1;
        type := type g |}.

Definition Graph_GetSize (g : Graph) : Z := size g.

Definition Graph_AddEdge (g : Graph) (start finish : Z) : outcome (Graph * bool) :=
  _ <- assert (0 <? len g);;
  start_idx <- find (vertices g) (size g) start;;
  finish_idx <- find (vertices g) (size g) finish;;
  if (start_idx =? -1) || (finish_idx =? -1) then Ok (g, false)
  else
    g <- modify g start_idx (fun x => insert x finish_idx 0%float);;
    g <- match type g with
         | eGraphType_UNDIRECTED =>
             modify g finish_idx (fun x => insert x start_idx 0%float)
         | eGraphType_DIRECTED => Ok g
         end;;
    Ok (g, true).

Definition Graph_GetLen (g : Graph) : Z := len g.

Definition Graph_GetDataByIndex (g : Graph) (vertex_idx : Z) : outcome Z :=
  _ <- assert ((0 <=? vertex_idx) && (vertex_idx <? len g));;
  x <- load g vertex_idx;;
  Ok (data x).

(** The returned reference is the index itself. *)
Definition Graph_GetVertexByIndex (g : Graph) (vertex_idx : Z) : outcome Z :=
  _ <- assert ((0 <=? vertex_idx) && (vertex_idx <? len g));;
  Ok vertex_idx.

(** [None] is the NULL of the source. *)
Fixpoint GetVertexByKey_loop (n : nat) (i : Z) (vs : list Vertex) (key : Z)
  : outcome (option Z) :=
  match n with
  | O => Ok None
  | S n' =>
      x <- aload vs i;;
      if data x =? key then Ok (Some i)
      else GetVertexByKey_loop n' (i + 1) vs key
  end.

Definition Graph_GetVertexByKey (g : Graph) (key : Z) : outcome (option Z) :=
  GetVertexByKey_loop (Z.to_nat (Graph_GetLen g)) 0 (vertices g) key.

Definition Graph_Size (g : Graph) : Z := size g.

(** Dereferencing what [Graph_GetVertexByKey] returned. *)
Definition deref (p : option Z) : outcome Z :=
  match p with
  | Some i => Ok i
  | None => Err InvalidAccess
  end.

(** ** The traversal *)

Definition MAX_VERTICES : Z := 9.

(** A run of a part of [dfs_topol] returns a value or stops at an error;
    either way it leaves the vertex array in some state. *)
Record run (A : Type) : Type := { graph_left : Graph; result : outcome A }.
Arguments graph_left {A} r.
Arguments result {A} r.

Definition returns {A : Type} (g : Graph) (a : A) : run A :=
  {| graph_left := g; result := Ok a |}.

Definition stops {A : Type} (g : Graph) (e : error) : run A :=
  {| graph_left := g; result := Err e |}.

(** A step [m] made on the vertex array [g]: if it fails, the run stops and
    leaves [g]. *)
Definition step {A B : Type} (g : Graph) (m : outcome A) (k : A -> run B) : run B :=
  match m with
  | Ok a => k a
  | Err e => stops g e
  end.

(** A run [r], then [k] on the vertex array it leaves and the value it
    returns. *)
Definition and_then {A B : Type} (r : run A) (k : Graph * A -> run B) : run B :=
  match result r with
  | Ok a => k (graph_left r, a)
  | Err e => stops (graph_left r) e
  end.

Notation "x <-[ g ] m ;; k" := (step g m (fun x => k))
  (at level 61, m at next level, right associativity).
Notation "' pat <<- r ;; k" := (and_then r (fun x => match x with pat => k end))
  (at level 61, pat pattern, r at next level, right associativity).

(** What a visit hands back, besides the vertex array: the value of
    [*pTiempo] and the queue object. *)
Definition visit_value : Set := (Z * Queue)%type.

Definition neighbor_count (v : Vertex) : nat :=
  match neighbors v with
  | Some l => length (items l)
  | None => 0%nat
  end.

(** The [for] loop of [dfs_topol_traverse] from its condition on, [k] bounding
    the iterations still allowed.  The cursor is read from the vertex array
    at every turn, after whatever the recursive visit [rec] wrote.  The
    recursive call receives [listado], the value of the parameter, as it
    is. *)
Fixpoint visit_neighbors
    (rec : Graph -> Z -> Z -> QueuePtr -> Queue -> run visit_value)
    (k : nat) (g : Graph) (v : Z) (pTiempo : Z) (listado : QueuePtr) (q : Queue)
  : run visit_value :=
  match k with
  | O => stops g OutOfFuel
  | S k' =>
      vx <-[g] load g v;;
      at_end <-[g] Vertex_End vx;;
      if at_end then returns g (pTiempo, q)
      else
        d <-[g] Vertex_GetNeighborIndex vx;;
        w <-[g] Graph_GetVertexByIndex g (index d);;
        wx <-[g] load g w;;
        '(g, (pTiempo, q)) <<-
          (if eGraphColors_eqb (Vertex_GetColor wx) WHITE then
             g <-[g] modify g w (fun x => Vertex_SetColor x GRAY);;
             vx <-[g] load g v;;
             g <-[g] modify g w (fun x => Vertex_SetPredecessor x (Vertex_GetData vx));;
             rec g w pTiempo listado q
           else returns g (pTiempo, q));;
        g <-[g] modifyM g v Vertex_Next;;
        visit_neighbors rec k' g v pTiempo listado q
  end.

(** [listado] is the value of the parameter of that name and [q] the queue
    object of the traversal.  The last statement is
    [Queue_Enqueue( &listado, v->data )]: the pointer it passes is the
    address of the parameter, not its value.  The recursion is bounded by
    [fuel]; [dfs_topol] starts it with one more than the number of
    vertices. *)
Fixpoint dfs_topol_traverse (fuel : nat) (g : Graph) (v : Z) (pTiempo : Z)
    (listado : QueuePtr) (q : Queue) : run visit_value :=
  match fuel with
  | O => stops g OutOfFuel
  | S fuel' =>
      let pTiempo := pTiempo + 1 in
      g <-[g] modify g v (fun x => Vertex_SetDiscovery_time x pTiempo);;
      g <-[g] modify g v (fun x => Vertex_SetColor x GRAY);;
      vx <-[g] load g v;;
      '(g, (pTiempo, q)) <<-
        (if Vertex_HasNeighbors vx then
           g <-[g] modifyM g v Vertex_Start;;
           visit_neighbors (dfs_topol_traverse fuel') (S (neighbor_count vx))
             g v pTiempo listado q
         else returns g (pTiempo, q));;
      g <-[g] modify g v (fun x => Vertex_SetColor x BLACK);;
      let pTiempo := pTiempo + 1 in
      g <-[g] modify g v (fun x => Vertex_SetDiscovery_time x pTiempo);;
      vx <-[g] load g v;;
      q <-[g] Queue_Enqueue_at (AddressOf listado) q (data vx);;
      returns g (pTiempo, q)
  end.

Definition reset_vertex (x : Vertex) : Vertex :=
  Vertex_SetFinish_time
    (Vertex_SetDiscovery_time
       (Vertex_SetPredecessor (Vertex_SetColor x WHITE) (-1)) 0) 0.

Fixpoint dfs_topol_reset (n : nat) (i : Z) (g : Graph) : run unit :=
  match n with
  | O => returns g tt
  | S n' =>
      v <-[g] Graph_GetVertexByIndex g i;;
      g <-[g] modify g v reset_vertex;;
      dfs_topol_reset n' (i + 1) g
  end.

(** [dfs_topol] up to the call of the recursive visit: the reset loop, the
    new queue, to which [lista] points, and the color of the start vertex. *)
Definition dfs_topol_init (g : Graph) (start : Z) : run Queue :=
  '(g, _) <<- dfs_topol_reset (Z.to_nat (Graph_GetLen g)) 0 g;;
  let q := Queue_New MAX_VERTICES in
  p <-[g] Graph_GetVertexByKey g start;;
  s <-[g] deref p;;
  g <-[g] modify g s (fun x => Vertex_SetColor x GRAY);;
  returns g q.

(** [dfs_topol] up to the return of the recursive visit, which is called
    with [&time_] and [&lista]. *)
Definition dfs_topol_visit (g : Graph) (start : Z) : run visit_value :=
  '(g, q) <<- dfs_topol_init g start;;
  let lista := ToQueue in
  let time_ := 0 in
  p <-[g] Graph_GetVertexByKey g start;;
  s <-[g] deref p;;
  dfs_topol_traverse (S (Z.to_nat (Graph_GetLen g))) g s time_ (AddressOf lista) q.

(** One line of the report, the three integers that
    ["[%d] (%d) -- Pred: %d\n"] prints. *)
Record ReportLine : Set := { r_index : Z; r_key : Z; r_pred : Z }.

(** The report loop, on the queue object, to which [lista] points:
    [i < Queue_Len(lista)] is evaluated anew at every turn.  It writes
    nothing to the vertex array. *)
Fixpoint report_loop (k : nat) (g : Graph) (i : Z) (lista : Queue)
  : outcome (list ReportLine) :=
  match k with
  | O => Err OutOfFuel
  | S k' =>
      if i <? Queue_Len lista then
        '(guardado, lista) <- Queue_Dequeue lista;;
        p <- Graph_GetVertexByKey g guardado;;
        v <- deref p;;
        vx <- load g v;;
        rest <- report_loop k' g (i + 1) lista;;
        Ok ({| r_index := i; r_key := Vertex_GetData vx;
               r_pred := Vertex_GetPredecessor vx |} :: rest)
      else Ok []
  end.

(** [dfs_topol]: the lines it prints. *)
Definition dfs_topol (g : Graph) (start : Z) : run (list ReportLine) :=
  '(g, (_, q)) <<- dfs_topol_visit g start;;
  out <-[g] report_loop (S (length (q_items q))) g 0 q;;
  returns g out.

(** ** The graph that [main] builds *)

Fixpoint add_vertices (g : Graph) (keys : list Z) : outcome Graph :=
  match keys with
  | [] => Ok g
  | k :: rest => g <- Graph_AddVertex g k;; add_vertices g rest
  end.

Fixpoint add_edges (g : Graph) (edges : list (Z * Z)) : outcome Graph :=
  match edges with
  | [] => Ok g
  | (a, b) :: rest => '(g, _) <- Graph_AddEdge g a b;; add_edges g rest
  end.

Definition main_graph : outcome Graph :=
  grafo <- Graph_New MAX_VERTICES eGraphType_DIRECTED;;
  grafo <- add_vertices grafo [100; 200; 300; 400; 500; 600; 700; 800; 900];;
  add_edges grafo
    [(100, 400); (200, 400); (300, 400); (400, 600); (400, 800);
     (500, 600); (600, 700); (700, 900); (800, 900)].

Definition grafo : Graph :=
  match main_graph with
  | Ok g => g
  | Err _ => {| vertices := []; size := 0; len := 0; type := eGraphType_DIRECTED |}
  end.



(** ** Printing a graph *)

(** One line of [Graph_Print]: the index and the key that ["[%d]%d=>"]
    prints, and the keys of the neighbors, one per ["%d->"], before the
    closing ["Nil\n"]. *)
Record PrintLine : Set := { p_index : Z; p_key : Z; p_neighbors : list Z }.

(** The inner [for] loop of [Graph_Print] on the list of the vertex in slot
    [i], from its condition on; [k] bounds the iterations still allowed.
    The key of a neighbor is read from the vertex array without a check
    against [len]. *)
Fixpoint print_neighbors (k : nat) (g : Graph) (i : Z)
  : outcome (Graph * list Z) :=
  match k with
  | O => Err OutOfFuel
  | S k' =>
      vertex <- load g i;;
      at_end <- Vertex_End vertex;;
      if at_end then Ok (g, [])
      else
        d <- Vertex_GetNeighborIndex vertex;;
        let neighbor_idx := index d in
        n <- load g neighbor_idx;;
        g <- modifyM g i Vertex_Next;;
        '(g, rest) <- print_neighbors k' g i;;
        Ok (g, data n :: rest)
  end.

Fixpoint Graph_Print_loop (n : nat) (i : Z) (g : Graph)
  : outcome (Graph * list PrintLine) :=
  match n with
  | O => Ok (g, [])
  | S n' =>
      vertex <- load g i;;
      '(g, ns) <-
        (if Vertex_HasNeighbors vertex then
           g <- modifyM g i Vertex_Start;;
           print_neighbors (S (neighbor_count vertex)) g i
         else Ok (g, []));;
      '(g, rest) <- Graph_Print_loop n' (i + 1) g;;
      Ok (g, {| p_index := i; p_key := data vertex; p_neighbors := ns |} :: rest)
  end.

(** [Graph_Print]: the lines it prints, before the final empty line, and the
    vertex array with the list cursors where the loops left them.  [depth] is
    not used. *)
Definition Graph_Print (g : Graph) (depth : Z) : outcome (Graph * list PrintLine) :=
  Graph_Print_loop (Z.to_nat (len g)) 0 g.
(** * Vocabulary of the properties *)

(** The storage a graph made by [Graph_New] has: [size] slots, of which the
    first [len] are populated. *)
Definition storage_ok (g : Graph) : bool :=
  (Z.of_nat (length (vertices g)) =? size g) && (0 <=? len g) && (len g <=? size g).


(** The adjacency entries of a vertex, and of the vertex in slot [i]. *)
Definition entries (x : Vertex) : list Data :=
  match neighbors x with
  | Some l => items l
  | None => []
  end.

Definition neighbor_indices (x : Vertex) : list Z := map index (entries x).

Definition adjacency (g : Graph) (i : Z) : list Data :=
  match load g i with
  | Ok x => entries x
  | Err _ => []
  end.

(** A sequence of [insert] calls on one vertex. *)
Definition insert_all (x : Vertex) (calls : list (Z * float)) : Vertex :=
  fold_left (fun x c => insert x (fst c) (snd c)) calls x.

(** The elements of a sequence in the order of their first occurrence. *)
Fixpoint first_occurrences (xs : list Z) : list Z :=
  match xs with
  | [] => []
  | x :: rest => x :: filter (fun y => negb (y =? x)) (first_occurrences rest)
  end.

(** A graph of capacity 2 that holds the single vertex 5. *)
Definition half_full : Graph :=
  match (g <- Graph_New 2 eGraphType_DIRECTED;; Graph_AddVertex g 5) with
  | Ok g => g
  | Err _ => {| vertices := []; size := 0; len := 0; type := eGraphType_DIRECTED |}
  end.


(** An undirected graph whose single vertex 5 already has its self-loop. *)
Definition looped : Graph :=
  match (g <- Graph_New 1 eGraphType_UNDIRECTED;;
         g <- Graph_AddVertex g 5;;
         '(g, _) <- Graph_AddEdge g 5 5;;
         Ok g) with
  | Ok g => g
  | Err _ => {| vertices := []; size := 0; len := 0; type := eGraphType_DIRECTED |}
  end.

(** What it would mean for [Graph_AddEdge g k k] to append exactly one entry
    to the list of the vertex with key [k]. *)
Definition appends_one_entry (g : Graph) (k : Z) : Prop :=
  exists i g' b d,
    Graph_GetVertexByKey g k = Ok (Some i) /\
    Graph_AddEdge g k k = Ok (g', b) /\
    adjacency g' i = adjacency g i ++ [d].

(** What the vertex in slot [i] holds, as the traversal reads it. *)
Definition color_at (g : Graph) (i : Z) : option eGraphColors :=
  match load g i with
  | Ok x => Some (color x)
  | Err _ => None
  end.

Definition is_white (g : Graph) (i : Z) : bool :=
  match color_at g i with
  | Some WHITE => true
  | _ => false
  end.

Definition key_at (g : Graph) (i : Z) : Z :=
  match load g i with
  | Ok x => data x
  | Err _ => 0
  end.

Definition cursor_of (x : Vertex) : nat :=
  match neighbors x with
  | Some l => cursor l
  | None => 0%nat
  end.

(** Two vertices with the same key and the same adjacency entries. *)
Definition same_shape (x y : Vertex) : Prop :=
  data y = data x /\
  option_map items (neighbors y) = option_map items (neighbors x).

(** Two vertices that differ at most in the cursor of their list. *)
Definition same_but_cursor (x y : Vertex) : Prop :=
  same_shape x y /\
  color y = color x /\
  predecessor y = predecessor x /\
  discovery_time y = discovery_time x /\
  finish_time y = finish_time x.

(** [g'] has the slots of [g], with the same keys and edges. *)
Definition evolves (g g' : Graph) : Prop :=
  size g' = size g /\ len g' = len g /\ type g' = type g /\
  (forall i x, load g i = Ok x -> exists y, load g' i = Ok y /\ same_shape x y) /\
  (forall i y, load g' i = Ok y -> exists x, load g i = Ok x /\ same_shape x y).

(** [g'] is a later state of the traversal than [g]: the same slots, keys
    and edges, no vertex has become white, and no finish time or distance
    has changed. *)
Definition later (g g' : Graph) : Prop :=
  evolves g g' /\
  (forall i, is_white g' i = true -> is_white g i = true) /\
  (forall i x y, load g i = Ok x -> load g' i = Ok y ->
     finish_time y = finish_time x /\ distance y = distance x).

(** Between [g] and [g'] no vertex has become black, except [b]. *)
Definition no_new_black (g g' : Graph) (b : option Z) : Prop :=
  forall i, color_at g' i = Some BLACK ->
            color_at g i = Some BLACK \/ b = Some i.

(** The populated slots exist and their adjacency entries name populated
    slots. *)
Definition wf (g : Graph) : Prop :=
  (forall i, 0 <= i < len g -> exists x, load g i = Ok x) /\
  (forall i x d, 0 <= i < len g -> load g i = Ok x -> In d (entries x) ->
                 0 <= index d < len g).

(** The same, as a check on the vertex array. *)
Definition graph_ok (g : Graph) : bool :=
  storage_ok g &&
  forallb
    (fun x => forallb (fun d => (0 <=? index d) && (index d <? len g)) (entries x))
    (firstn (Z.to_nat (len g)) (vertices g)).

(** A directed chain of ten vertices, 1 -> 2 -> ... -> 10. *)
Definition chain10 : Graph :=
  match (g <- Graph_New 10 eGraphType_DIRECTED;;
         g <- add_vertices g [1; 2; 3; 4; 5; 6; 7; 8; 9; 10];;
         add_edges g [(1, 2); (2, 3); (3, 4); (4, 5); (5, 6); (6, 7); (7, 8);
                      (8, 9); (9, 10)]) with
  | Ok g => g
  | Err _ => {| vertices := []; size := 0; len := 0; type := eGraphType_DIRECTED |}
  end.

(** ** Vocabulary of the properties of the graph operations *)

(** The neighbor indices of the vertex in slot [i]. *)
Definition indices_at (g : Graph) (i : Z) : list Z := map index (adjacency g i).

(** The calls by which a client populates a graph. *)
Inductive op : Set :=
| OpAddVertex (d : Z)
| OpAddEdge (a b : Z).

Definition apply_op (g : Graph) (o : op) : outcome Graph :=
  match o with
  | OpAddVertex d => Graph_AddVertex g d
  | OpAddEdge a b => '(g, _) <- Graph_AddEdge g a b;; Ok g
  end.

Fixpoint apply_ops (g : Graph) (ops : list op) : outcome Graph :=
  match ops with
  | [] => Ok g
  | o :: rest => g <- apply_op g o;; apply_ops g rest
  end.

(** What every graph made by [Graph_New] and populated by [Graph_AddVertex]
    and [Graph_AddEdge] satisfies: the array has [size] slots of which the
    first [len] are populated, no adjacency list repeats an index, every
    index in a list is the index of a slot, and an unpopulated slot still
    has the key 0 that [calloc] gave it. *)
Definition api_inv (g : Graph) : Prop :=
  storage_ok g = true /\
  forall i x, load g i = Ok x ->
    NoDup (neighbor_indices x) /\
    (forall w, In w (neighbor_indices x) -> 0 <= w < size g) /\
    (len g <= i -> data x = 0).

(** The key [k] is the key of a populated vertex. *)
Definition populated_key (g : Graph) (k : Z) : Prop :=
  exists i x, 0 <= i < len g /\ load g i = Ok x /\ data x = k.

(** Successive [insert]s of the indices [ws], with the weight 0 that
    [Graph_AddEdge] passes. *)
Definition inserts (x : Vertex) (ws : list Z) : Vertex :=
  fold_left (fun x w => insert x w 0%float) ws x.

(** The indices that [Graph_AddEdge], having resolved its keys to [ia] and
    [ib], inserts into the list of slot [i]. *)
Definition edge_inserts (ty : eGraphType) (ia ib i : Z) : list Z :=
  (if i =? ia then [ib] else []) ++
  match ty with
  | eGraphType_UNDIRECTED => if i =? ib then [ia] else []
  | eGraphType_DIRECTED => []
  end.

(** [g'] has the slots of [g] with the same keys. *)
Definition keys_kept (g g' : Graph) : Prop :=
  len g' = len g /\ size g' = size g /\
  forall i,
    match load g i, load g' i with
    | Ok x, Ok y => data y = data x
    | Err _, Err _ => True
    | _, _ => False
    end.

(** The key [k] is held by one of the [size] slots, populated or not. *)
Definition slot_key (g : Graph) (k : Z) : Prop :=
  exists i x, 0 <= i < size g /\ load g i = Ok x /\ data x = k.

(** [g'] is [g] up to the cursors of the adjacency lists. *)
Definition only_cursors (g g' : Graph) : Prop :=
  size g' = size g /\ len g' = len g /\ type g' = type g /\
  forall i,
    match load g i, load g' i with
    | Ok x, Ok y => same_but_cursor x y
    | Err _, Err _ => True
    | _, _ => False
    end.

(** The line that describes the vertex in slot [i]: its index, its key and
    the keys of its neighbors in the order of the adjacency list. *)
Definition line_of (g : Graph) (i : Z) : PrintLine :=
  {| p_index := i; p_key := key_at g i;
     p_neighbors := map (key_at g) (indices_at g i) |}.

Definition slots_from (i : Z) (n : nat) : list Z :=
  map Z.of_nat (seq (Z.to_nat i) n).

Definition adjacency_lines (g : Graph) : list PrintLine :=
  map (line_of g) (slots_from 0 (Z.to_nat (len g))).

(** ** Vocabulary of the traversal *)

(** The number of populated vertices that are white. *)
Definition white_count (g : Graph) : nat :=
  length (filter (is_white g) (slots_from 0 (Z.to_nat (len g)))).

(** A run that started on the vertex array [g] and stopped in a visit, at
    the invalid access: it leaves a later state [g'], in which one vertex,
    [b], has become black. *)
Definition stopped_in (g : Graph) (r : run visit_value) : Prop :=
  exists g' b,
    r = stops g' InvalidAccess /\ later g g' /\
    0 <= b < len g /\ color_at g' b = Some BLACK /\
    no_new_black g g' (Some b).
(** * Properties *)

(** ** Inversion of runs *)

Lemma bind_Ok {A B : Type} (m : outcome A) (k : A -> outcome B) (b : B) :
  bind m k = Ok b -> exists a, m = Ok a /\ k a = Ok b.
Proof.
  destruct m as [a|e]; simpl; intros H; [now exists a | discriminate].
Qed.

Lemma assert_Ok (b : bool) (u : unit) : assert b = Ok u -> b = true.
Proof. destruct b; simpl; [reflexivity | discriminate]. Qed.

Ltac inv_run H :=
  match type of H with
  | bind _ _ = Ok _ =>
      let a := fresh "a" in
      let Ha := fresh "Ha" in
      apply bind_Ok in H; destruct H as (a & Ha & H)
  | Ok _ = Ok _ => injection H as H
  end.

(** ** The vertex array *)

Lemma upd_length (vs : list Vertex) (n : nat) (x : Vertex) :
  length (upd vs n x) = length vs.
Proof.
  revert n; induction vs as [|h t IH]; intros [|n]; simpl; auto.
Qed.

Lemma nth_error_upd_eq (vs : list Vertex) (n : nat) (x : Vertex) :
  (n < length vs)%nat -> nth_error (upd vs n x) n = Some x.
Proof.
  revert n; induction vs as [|h t IH]; intros [|n]; simpl; intros Hn;
    try lia; auto.
  apply IH; lia.
Qed.

Lemma nth_error_upd_ne (vs : list Vertex) (n m : nat) (x : Vertex) :
  n <> m -> nth_error (upd vs n x) m = nth_error vs m.
Proof.
  revert n m; induction vs as [|h t IH]; intros [|n] [|m] Hnm; simpl; auto;
    try congruence.
Qed.

Lemma upd_same (vs : list Vertex) (n : nat) (x : Vertex) :
  nth_error vs n = Some x -> upd vs n x = vs.
Proof.
  revert n; induction vs as [|h t IH]; intros [|n]; simpl; intros H;
    try discriminate; [congruence | now rewrite IH].
Qed.

Lemma aload_Ok (vs : list Vertex) (p : Z) (x : Vertex) :
  aload vs p = Ok x <-> 0 <= p /\ nth_error vs (Z.to_nat p) = Some x.
Proof.
  unfold aload. destruct (p <? 0) eqn:Hp.
  - apply Z.ltb_lt in Hp. split; [discriminate | lia].
  - apply Z.ltb_ge in Hp.
    destruct (nth_error vs (Z.to_nat p)) as [y|]; split.
    + intros H; injection H as ->; auto.
    + intros [_ H]; congruence.
    + discriminate.
    + intros [_ H]; discriminate.
Qed.

Lemma aload_bound (vs : list Vertex) (p : Z) (x : Vertex) :
  aload vs p = Ok x -> 0 <= p < Z.of_nat (length vs).
Proof.
  intros H. apply aload_Ok in H as [Hp H].
  assert (Z.to_nat p < length vs)%nat by (apply nth_error_Some; congruence).
  lia.
Qed.

Lemma aload_in_range (vs : list Vertex) (p : Z) :
  0 <= p < Z.of_nat (length vs) -> exists x, aload vs p = Ok x.
Proof.
  intros Hp. destruct (nth_error vs (Z.to_nat p)) as [x|] eqn:E.
  - exists x. apply aload_Ok; split; [lia | assumption].
  - apply nth_error_None in E. lia.
Qed.

Lemma load_store_eq (g : Graph) (p : Z) (x y : Vertex) :
  load g p = Ok y -> load (store g p x) p = Ok x.
Proof.
  unfold load, store; simpl. intros H.
  pose proof (aload_bound _ _ _ H) as Hb.
  apply aload_Ok. split; [lia |].
  apply nth_error_upd_eq. lia.
Qed.

Lemma load_store_ne (g : Graph) (p q : Z) (x : Vertex) :
  0 <= p -> p <> q -> load (store g p x) q = load g q.
Proof.
  unfold load, store, aload; simpl. intros Hp Hpq.
  destruct (q <? 0) eqn:Hq; [reflexivity |].
  apply Z.ltb_ge in Hq.
  rewrite nth_error_upd_ne by lia. reflexivity.
Qed.

Lemma store_same (g : Graph) (p : Z) (x : Vertex) :
  load g p = Ok x -> store g p x = g.
Proof.
  intros H. apply aload_Ok in H as [_ H].
  unfold store. rewrite (upd_same _ _ _ H). now destruct g.
Qed.

Lemma modify_Ok (g g' : Graph) (p : Z) (f : Vertex -> Vertex) :
  modify g p f = Ok g' ->
  exists x, load g p = Ok x /\ g' = store g p (f x) /\ 0 <= p.
Proof.
  unfold modify. intros H. inv_run H. inv_run H.
  exists a. repeat split; auto.
  apply aload_bound in Ha. lia.
Qed.

Lemma modify_run (g : Graph) (p : Z) (f : Vertex -> Vertex) (x : Vertex) :
  load g p = Ok x -> modify g p f = Ok (store g p (f x)).
Proof. unfold modify. now intros ->. Qed.

Lemma modifyM_run (g : Graph) (p : Z) (f : Vertex -> outcome Vertex) (x y : Vertex) :
  load g p = Ok x -> f x = Ok y -> modifyM g p f = Ok (store g p y).
Proof. unfold modifyM. intros -> E. simpl. now rewrite E. Qed.

Lemma storage_ok_spec (g : Graph) :
  storage_ok g = true ->
  Z.of_nat (length (vertices g)) = size g /\ 0 <= len g <= size g.
Proof.
  unfold storage_ok. rewrite !andb_true_iff.
  intros [[H1 H2] H3]. lia.
Qed.

(** ** Key lookup: [find] and [Graph_GetVertexByKey] *)

Lemma find_loop_spec (n : nat) (vs : list Vertex) (key : Z) :
  forall (i r : Z), 0 <= i ->
  find_loop n i vs key = Ok r ->
  (r = -1 /\
   forall j x, i <= j < i + Z.of_nat n -> aload vs j = Ok x -> data x <> key)
  \/
  (i <= r < i + Z.of_nat n /\
   (exists x, aload vs r = Ok x /\ data x = key) /\
   forall j x, i <= j < r -> aload vs j = Ok x -> data x <> key).
Proof.
  induction n as [|n IH]; intros i r Hi H; simpl in H.
  - injection H as <-. left. split; [reflexivity | intros; lia].
  - inv_run H. destruct (data a =? key) eqn:E.
    + injection H as <-. apply Z.eqb_eq in E. right.
      split; [lia |]. split; [now exists a | intros; lia].
    + apply Z.eqb_neq in E.
      destruct (IH (i + 1) r ltac:(lia) H) as [[-> Hall] | (Hr & Hx & Hall)].
      * left. split; [reflexivity |]. intros j x Hj Hl.
        destruct (Z.eq_dec j i) as [-> | Hne]; [congruence | apply (Hall j); auto; lia].
      * right. split; [lia |]. split; [assumption |]. intros j x Hj Hl.
        destruct (Z.eq_dec j i) as [-> | Hne]; [congruence | apply (Hall j); auto; lia].
Qed.

Lemma find_loop_total (n : nat) (vs : list Vertex) (key : Z) :
  forall i, 0 <= i -> i + Z.of_nat n <= Z.of_nat (length vs) ->
  exists r, find_loop n i vs key = Ok r.
Proof.
  induction n as [|n IH]; intros i Hi Hn; simpl.
  - now exists (-1).
  - destruct (aload_in_range vs i ltac:(lia)) as [x ->]; simpl.
    destruct (data x =? key); [now exists i | apply IH; lia].
Qed.

Lemma GetVertexByKey_loop_find (n : nat) (vs : list Vertex) (key : Z) :
  forall i, 0 <= i ->
  GetVertexByKey_loop n i vs key =
  (r <- find_loop n i vs key;; Ok (if r =? -1 then None else Some r)).
Proof.
  induction n as [|n IH]; intros i Hi; simpl; [reflexivity |].
  destruct (aload vs i) as [x|e]; simpl; [| reflexivity].
  destruct (data x =? key); simpl.
  - destruct (i =? -1) eqn:E; [apply Z.eqb_eq in E; lia | reflexivity].
  - apply IH; lia.
Qed.

Lemma GetVertexByKey_find (g : Graph) (key : Z) :
  Graph_GetVertexByKey g key =
  (r <- find (vertices g) (len g) key;; Ok (if r =? -1 then None else Some r)).
Proof.
  unfold Graph_GetVertexByKey, Graph_GetLen, find.
  apply GetVertexByKey_loop_find; lia.
Qed.

Lemma GetVertexByKey_Some (g : Graph) (key i : Z) :
  Graph_GetVertexByKey g key = Ok (Some i) ->
  0 <= i < len g /\
  (exists x, load g i = Ok x /\ data x = key) /\
  forall j x, 0 <= j < i -> load g j = Ok x -> data x <> key.
Proof.
  rewrite GetVertexByKey_find. intros H. inv_run H.
  destruct (a =? -1) eqn:E; [discriminate |]. injection H as ->.
  apply Z.eqb_neq in E.
  apply find_loop_spec in Ha; [| lia].
  destruct Ha as [[-> _] | (Hr & Hx & Hall)]; [lia |].
  split; [lia | split; assumption].
Qed.

Lemma GetVertexByKey_None (g : Graph) (key : Z) :
  Graph_GetVertexByKey g key = Ok None ->
  forall j x, 0 <= j < len g -> load g j = Ok x -> data x <> key.
Proof.
  rewrite GetVertexByKey_find. intros H. inv_run H.
  destruct (a =? -1) eqn:E; [| discriminate].
  apply Z.eqb_eq in E; subst a.
  apply find_loop_spec in Ha; [| lia].
  destruct Ha as [[_ Hall] | (Hr & _)]; [| lia].
  intros j x Hj. apply Hall. lia.
Qed.

Lemma GetVertexByKey_total (g : Graph) (key : Z) :
  len g <= Z.of_nat (length (vertices g)) ->
  exists p, Graph_GetVertexByKey g key = Ok p.
Proof.
  intros H. rewrite GetVertexByKey_find.
  destruct (find_loop_total (Z.to_nat (len g)) (vertices g) key 0) as [r Hr];
    [lia | lia |].
  unfold find. rewrite Hr. simpl. eauto.
Qed.

(** ** Adjacency-list insertion *)

Lemma List_Find_In (l : List) (idx : Z) :
  List_Find l idx = true <-> In idx (map index (items l)).
Proof.
  unfold List_Find. rewrite existsb_exists, in_map_iff.
  split; intros (d & H1 & H2).
  - exists d. apply Z.eqb_eq in H2. auto.
  - exists d. split; [assumption | now apply Z.eqb_eq].
Qed.

Lemma find_neighbor_In (x : Vertex) (idx : Z) :
  find_neighbor x idx = true <-> In idx (neighbor_indices x).
Proof.
  unfold find_neighbor, neighbor_indices, entries.
  destruct (neighbors x) as [l|]; [apply List_Find_In |].
  simpl. split; [discriminate | tauto].
Qed.

Lemma insert_present (x : Vertex) (idx : Z) (w : float) :
  find_neighbor x idx = true -> insert x idx w = x.
Proof.
  unfold insert, find_neighbor.
  destruct (neighbors x) as [l|] eqn:E; cbv zeta; rewrite ?E.
  - intros ->. reflexivity.
  - discriminate.
Qed.

Lemma insert_absent (x : Vertex) (idx : Z) (w : float) :
  find_neighbor x idx = false ->
  entries (insert x idx w) = entries x ++ [{| index := idx; weight := w |}].
Proof.
  unfold insert, find_neighbor, entries.
  destruct (neighbors x) as [l|] eqn:E; cbv zeta; rewrite ?E.
  - intros ->. reflexivity.
  - intros _. reflexivity.
Qed.

Lemma insert_fields (x : Vertex) (idx : Z) (w : float) :
  data (insert x idx w) = data x /\
  color (insert x idx w) = color x /\
  predecessor (insert x idx w) = predecessor x /\
  discovery_time (insert x idx w) = discovery_time x /\
  finish_time (insert x idx w) = finish_time x.
Proof.
  unfold insert.
  destruct (neighbors x) as [l|] eqn:E; cbv zeta; rewrite ?E.
  - destruct (negb (find_neighbor x idx)); simpl; auto.
  - simpl. auto.
Qed.

Lemma insert_indices (x : Vertex) (idx : Z) (w : float) :
  neighbor_indices (insert x idx w) =
  if find_neighbor x idx then neighbor_indices x else neighbor_indices x ++ [idx].
Proof.
  destruct (find_neighbor x idx) eqn:E.
  - now rewrite insert_present.
  - unfold neighbor_indices. rewrite insert_absent by assumption.
    now rewrite map_app.
Qed.

Lemma NoDup_first_occurrences (xs : list Z) : NoDup (first_occurrences xs).
Proof.
  induction xs as [|x rest IH]; simpl; constructor.
  - rewrite filter_In. intros [_ H]. rewrite Z.eqb_refl in H. discriminate.
  - now apply NoDup_filter.
Qed.

Lemma filter_absent_app (seen l : list Z) (c : Z) :
  filter (fun y => negb (existsb (Z.eqb y) (seen ++ [c]))) l =
  filter (fun y => negb (existsb (Z.eqb y) seen)) (filter (fun y => negb (y =? c)) l).
Proof.
  induction l as [|a l IH]; simpl; [reflexivity |].
  rewrite existsb_app; simpl. rewrite orb_false_r.
  destruct (a =? c) eqn:E; simpl.
  - rewrite orb_true_r; simpl. exact IH.
  - rewrite orb_false_r. destruct (existsb (Z.eqb a) seen); simpl; now rewrite IH.
Qed.

Lemma filter_absent_present (seen l : list Z) (c : Z) :
  In c seen ->
  filter (fun y => negb (existsb (Z.eqb y) seen)) (filter (fun y => negb (y =? c)) l) =
  filter (fun y => negb (existsb (Z.eqb y) seen)) l.
Proof.
  intros Hc. induction l as [|a l IH]; simpl; [reflexivity |].
  destruct (a =? c) eqn:E; simpl.
  - apply Z.eqb_eq in E; subst a.
    assert (existsb (Z.eqb c) seen = true) as ->.
    { apply existsb_exists. exists c. split; [assumption | apply Z.eqb_refl]. }
    simpl. exact IH.
  - now rewrite IH.
Qed.

Lemma find_neighbor_existsb (x : Vertex) (idx : Z) :
  find_neighbor x idx = existsb (Z.eqb idx) (neighbor_indices x).
Proof.
  apply eq_true_iff_eq. rewrite find_neighbor_In, existsb_exists.
  split.
  - intros H. exists idx. split; [assumption | apply Z.eqb_refl].
  - intros (y & Hy & E). apply Z.eqb_eq in E. now subst.
Qed.

(** From any vertex, the calls add the first occurrences of the indices the
    vertex does not hold yet. *)
Lemma insert_all_indices (calls : list (Z * float)) :
  forall x,
  neighbor_indices (insert_all x calls) =
  neighbor_indices x ++
  filter (fun y => negb (existsb (Z.eqb y) (neighbor_indices x)))
         (first_occurrences (map fst calls)).
Proof.
  induction calls as [|[c w] calls IH]; intros x; simpl.
  - now rewrite app_nil_r.
  - change (fold_left _ calls (insert x c w)) with (insert_all (insert x c w) calls).
    rewrite IH, insert_indices, find_neighbor_existsb.
    destruct (existsb (Z.eqb c) (neighbor_indices x)) eqn:E; simpl.
    + rewrite filter_absent_present; [reflexivity |].
      apply existsb_exists in E as (y & Hy & Ey). apply Z.eqb_eq in Ey. now subst.
    + rewrite filter_absent_app, <- app_assoc. reflexivity.
Qed.

(** C6: whatever sequence of [insert] calls a vertex without a list receives,
    its adjacency list then holds every neighbor index at most once, namely
    the indices of the calls in the order of their first occurrence; an
    [insert] of an index that is present changes nothing, and an [insert] of
    an absent index appends its entry at the back. *)
Theorem insert_unique_in_first_insertion_order
    (x : Vertex) (calls : list (Z * float)) :
  neighbors x = None ->
  NoDup (neighbor_indices (insert_all x calls)) /\
  neighbor_indices (insert_all x calls) = first_occurrences (map fst calls) /\
  (forall (y : Vertex) (idx : Z) (w : float),
     find_neighbor y idx = true -> insert y idx w = y) /\
  (forall (y : Vertex) (idx : Z) (w : float),
     find_neighbor y idx = false ->
     entries (insert y idx w) = entries y ++ [{| index := idx; weight := w |}]).
Proof.
  intros Hx.
  assert (E : neighbor_indices (insert_all x calls) = first_occurrences (map fst calls)).
  { rewrite insert_all_indices. unfold neighbor_indices, entries. rewrite Hx. simpl.
    clear. induction (first_occurrences (map fst calls)) as [|a l IH]; simpl; congruence. }
  split; [rewrite E; apply NoDup_first_occurrences |].
  split; [exact E |].
  split; [apply insert_present | apply insert_absent].
Qed.

Lemma insert_unique_in_first_insertion_order_witness :
  neighbors zero_vertex = None /\
  neighbor_indices
    (insert_all zero_vertex [(3, 0%float); (1, 0%float); (3, 0%float); (2, 0%float); (1, 0%float)])
  = [3; 1; 2].
Proof.
  split; [reflexivity |].
  destruct (insert_unique_in_first_insertion_order zero_vertex
              [(3, 0%float); (1, 0%float); (3, 0%float); (2, 0%float); (1, 0%float)]
              eq_refl) as (_ & E & _).
  exact E.
Defined.

(** ** Edge insertion *)

Lemma find_populated (g : Graph) (k i : Z) :
  storage_ok g = true ->
  Graph_GetVertexByKey g k = Ok (Some i) ->
  find (vertices g) (size g) k = Ok i.
Proof.
  intros Hs Hk. apply storage_ok_spec in Hs as [Hlen Hrange].
  apply GetVertexByKey_Some in Hk as (Hi & (x & Hx & Hd) & Hlow).
  destruct (find_loop_total (Z.to_nat (size g)) (vertices g) k 0) as [r Hr];
    [lia | lia |].
  unfold find. rewrite Hr. f_equal.
  apply find_loop_spec in Hr; [| lia].
  destruct Hr as [[-> Hall] | (Hr & (y & Hy & Hyd) & Hall)].
  - exfalso. apply (Hall i x); auto. lia.
  - destruct (Z.lt_trichotomy r i) as [Hlt | [Heq | Hgt]]; [| assumption |].
    + exfalso. apply (Hlow r y); auto. lia.
    + exfalso. apply (Hall i x); auto. lia.
Qed.

Lemma adjacency_store (g : Graph) (p : Z) (x y : Vertex) :
  load g p = Ok y -> adjacency (store g p x) p = entries x.
Proof.
  intros H. unfold adjacency. now rewrite (load_store_eq _ _ x _ H).
Qed.

Lemma find_neighbor_insert (x : Vertex) (idx : Z) (w : float) :
  find_neighbor (insert x idx w) idx = true.
Proof.
  apply find_neighbor_In. rewrite insert_indices.
  destruct (find_neighbor x idx) eqn:E.
  - now apply find_neighbor_In.
  - apply in_or_app. right. now left.
Qed.

Lemma Graph_AddEdge_false_unchanged (g g' : Graph) (a b : Z) :
  Graph_AddEdge g a b = Ok (g', false) -> g' = g.
Proof.
  unfold Graph_AddEdge. intros H. do 3 inv_run H.
  destruct ((a1 =? -1) || (a2 =? -1)).
  - now injection H as <-.
  - do 2 inv_run H. discriminate.
Qed.

(** C9, as amended: for a graph of either type that holds a populated vertex
    with key [k], [Graph_AddEdge g k k] succeeds and touches no other vertex;
    when the list of that vertex does not hold the vertex's own index yet,
    exactly one entry is appended to it (the symmetric insert of an
    undirected graph is suppressed as a duplicate), and when it does, nothing
    is appended and the graph stays as it was. *)
Theorem addEdge_self_loop (g : Graph) (k i : Z) (x : Vertex) :
  storage_ok g = true ->
  Graph_GetVertexByKey g k = Ok (Some i) ->
  load g i = Ok x ->
  exists g',
    Graph_AddEdge g k k = Ok (g', true) /\
    (forall j, j <> i -> load g' j = load g j) /\
    (find_neighbor x i = false ->
     adjacency g' i = adjacency g i ++ [{| index := i; weight := 0%float |}]) /\
    (find_neighbor x i = true -> g' = g).
Proof.
  intros Hs Hk Hx.
  pose proof (find_populated g k i Hs Hk) as Hf.
  pose proof (GetVertexByKey_Some g k i Hk) as (Hi & _).
  set (y := insert x i 0%float).
  assert (Hy : load (store g i y) i = Ok y) by (eapply load_store_eq; eassumption).
  assert (Hrun : Graph_AddEdge g k k = Ok (store g i y, true)).
  { unfold Graph_AddEdge.
    assert ((0 <? len g) = true) as -> by (apply Z.ltb_lt; lia). simpl.
    rewrite Hf. simpl.
    assert ((i =? -1) = false) as -> by (apply Z.eqb_neq; lia). simpl.
    unfold modify at 1. rewrite Hx. simpl. fold y.
    destruct (type g); simpl; [| reflexivity].
    unfold modify. rewrite Hy. simpl.
    assert (insert y i 0%float = y) as ->
      by (apply insert_present; apply find_neighbor_insert).
    now rewrite (store_same _ _ _ Hy). }
  exists (store g i y). split; [exact Hrun |]. split; [| split].
  - intros j Hj. apply load_store_ne; [lia | congruence].
  - intros Hn. rewrite (adjacency_store _ _ _ _ Hx).
    unfold adjacency. rewrite Hx. now apply insert_absent.
  - intros Hp. unfold y. rewrite insert_present by assumption.
    now apply store_same.
Qed.

Lemma addEdge_self_loop_witness :
  storage_ok half_full = true /\
  Graph_GetVertexByKey half_full 5 = Ok (Some 0) /\
  exists g',
    Graph_AddEdge half_full 5 5 = Ok (g', true) /\
    adjacency g' 0 = [{| index := 0; weight := 0%float |}].
Proof.
  split; [reflexivity |]. split; [reflexivity |].
  destruct (addEdge_self_loop half_full 5 0
              {| data := 5; neighbors := None; distance := 0; predecessor := 0;
                 color := WHITE; discovery_time := 0; finish_time := 0 |}
              eq_refl eq_refl eq_refl) as (g' & Hrun & _ & Hnew & _).
  exists g'. split; [exact Hrun |].
  exact (Hnew eq_refl).
Defined.

(** C9, as stated, fails on an undirected graph whose vertex 5 already has
    its self-loop: a further [Graph_AddEdge] of 5 and 5 appends no entry. *)
Lemma addEdge_self_loop_twice :
  type looped = eGraphType_UNDIRECTED /\
  Graph_GetVertexByKey looped 5 = Ok (Some 0) /\
  Graph_AddEdge looped 5 5 = Ok (looped, true) /\
  ~ appends_one_entry looped 5.
Proof.
  split; [reflexivity |]. split; [reflexivity |]. split; [reflexivity |].
  intros (i & g' & b & d & Hk & Hrun & Happ).
  vm_compute in Hk. injection Hk as <-.
  vm_compute in Hrun. injection Hrun as <- <-.
  vm_compute in Happ. discriminate.
Qed.

(** C5, on a graph of capacity 2 that holds the single vertex 5: key 0 is the
    key of no populated vertex, and yet [Graph_AddEdge] of 5 and 0 returns
    true and gives vertex 5 an entry for the unpopulated slot 1. *)
Theorem addEdge_resolves_unpopulated_slot :
  len half_full = 1 /\ size half_full = 2 /\
  Graph_GetVertexByKey half_full 0 = Ok None /\
  adjacency half_full 0 = [] /\
  exists g',
    Graph_AddEdge half_full 5 0 = Ok (g', true) /\
    adjacency g' 0 = [{| index := 1; weight := 0%float |}].
Proof.
  repeat (split; [reflexivity |]).
  eexists. split; reflexivity.
Qed.

Lemma Graph_AddEdge_resolved (g : Graph) (start finish a b : Z) (x y : Vertex) :
  0 < len g ->
  find (vertices g) (size g) start = Ok a ->
  find (vertices g) (size g) finish = Ok b ->
  load g a = Ok x -> load g b = Ok y ->
  exists g', Graph_AddEdge g start finish = Ok (g', true).
Proof.
  intros Hlen Ha Hb Hx Hy. unfold Graph_AddEdge.
  assert ((0 <? len g) = true) as -> by (apply Z.ltb_lt; lia).
  cbn [assert bind]. rewrite Ha, Hb. cbn [bind].
  pose proof (aload_bound _ _ _ Hx). pose proof (aload_bound _ _ _ Hy).
  assert ((a =? -1) = false) as -> by (apply Z.eqb_neq; lia).
  assert ((b =? -1) = false) as -> by (apply Z.eqb_neq; lia).
  cbn [orb]. rewrite (modify_run _ _ _ _ Hx). cbn [bind].
  destruct (type _); cbn [bind]; [| eauto].
  destruct (Z.eq_dec a b) as [-> | Hne].
  - rewrite (modify_run _ _ _ _ (load_store_eq _ _ _ _ Hx)). cbn [bind]. eauto.
  - assert (Hy' : load (store g a (insert x b 0%float)) b = Ok y)
      by (rewrite load_store_ne; [assumption | lia | assumption]).
    rewrite (modify_run _ _ _ _ Hy'). cbn [bind]. eauto.
Qed.



(** ** The report loop *)

(** The loop prints a line and removes an element at every turn while the
    line number stays below what is left in the queue. *)
Lemma report_loop_length (k : nat) (g : Graph) :
  forall (i : Z) (lista : Queue) (out : list ReportLine),
  report_loop k g i lista = Ok out ->
  Z.of_nat (length out) = Z.max 0 ((Queue_Len lista - i + 1) / 2).
Proof.
  induction k as [|k IH]; intros i lista out H; simpl in H; [discriminate |].
  destruct (i <? Queue_Len lista) eqn:E.
  - apply Z.ltb_lt in E. inv_run H. destruct a as [guardado lista'].
    do 4 inv_run H. injection H as <-.
    unfold Queue_Dequeue in Ha. destruct (q_items lista) as [|h rest] eqn:Eq;
      [discriminate |]. injection Ha as <- <-.
    apply IH in Ha3. simpl length. rewrite Nat2Z.inj_succ, Ha3.
    unfold Queue_Len in *. rewrite Eq in E. rewrite Eq. simpl q_items.
    simpl length in *. rewrite Nat2Z.inj_succ in *.
    assert (Hd : (Z.succ (Z.of_nat (length rest)) - i + 1) / 2
                 = (Z.of_nat (length rest) - (i + 1) + 1) / 2 + 1).
    { rewrite <- Z.div_add by lia. f_equal. lia. }
    rewrite Hd.
    assert (0 <= (Z.of_nat (length rest) - (i + 1) + 1) / 2)
      by (apply Z.div_pos; lia).
    lia.
  - apply Z.ltb_ge in E. injection H as <-. simpl.
    assert ((Queue_Len lista - i + 1) / 2 <= 0); [| lia].
    assert (Queue_Len lista - i + 1 <= 1) by lia.
    assert ((Queue_Len lista - i + 1) / 2 <= 1 / 2)
      by (apply Z.div_le_mono; lia).
    change (1 / 2) with 0 in *. lia.
Qed.

Lemma report_loop_runs (g : Graph) (k : nat) :
  forall i lista,
  0 <= i ->
  (forall key, In key (q_items lista) ->
     exists s x, Graph_GetVertexByKey g key = Ok (Some s) /\ load g s = Ok x) ->
  (length (q_items lista) < k)%nat ->
  exists out, report_loop k g i lista = Ok out.
Proof.
  induction k as [|k IH]; intros i lista Hi Hkeys Hk; [lia |].
  cbn [report_loop]. destruct (i <? Queue_Len lista) eqn:E; [| eauto].
  unfold Queue_Dequeue. destruct (q_items lista) as [|h rest] eqn:Eq.
  - apply Z.ltb_lt in E. unfold Queue_Len in E. rewrite Eq in E.
    simpl in E. lia.
  - cbn [bind].
    destruct (Hkeys h ltac:(now left)) as (s & x & Hs & Hx).
    rewrite Hs. cbn [bind deref]. rewrite Hx. cbn [bind].
    destruct (IH (i + 1) {| q_items := rest; q_capacity := q_capacity lista |})
      as [out Hout].
    + lia.
    + intros key Hin. apply Hkeys. now right.
    + simpl in *. lia.
    + rewrite Hout. cbn [bind]. eauto.
Qed.

Lemma report_loop_lines (g : Graph) (k : nat) :
  forall i lista out,
  report_loop k g i lista = Ok out ->
  map r_key out = firstn (length out) (q_items lista) /\
  map r_index out = map (fun j => i + Z.of_nat j) (seq 0 (length out)) /\
  forall line, In line out ->
    exists v x, Graph_GetVertexByKey g (r_key line) = Ok (Some v) /\
                load g v = Ok x /\ r_pred line = predecessor x.
Proof.
  induction k as [|k IH]; intros i lista out H; simpl in H; [discriminate |].
  destruct (i <? Queue_Len lista).
  - inv_run H. destruct a as [guardado lista'].
    unfold Queue_Dequeue in Ha. destruct (q_items lista) as [|h rest] eqn:Eq;
      [discriminate |]. injection Ha as <- <-.
    inv_run H. rename a into p, Ha into Hp.
    inv_run H. rename a into v, Ha into Hv. destruct p as [v'|]; [| discriminate].
    injection Hv as ->.
    inv_run H. rename a into vx, Ha into Hvx.
    inv_run H. rename a into rest', Ha into Hrest. injection H as <-.
    destruct (IH _ _ _ Hrest) as (Hk & Hi & Hl). cbn [q_items] in Hk.
    destruct (GetVertexByKey_Some _ _ _ Hp) as (_ & (z & Hz & Hzd) & _).
    assert (z = vx) by congruence; subst z.
    split; [| split].
    + cbn [map length firstn r_key]. unfold Vertex_GetData. now rewrite Hzd, Hk.
    + cbn [map length seq r_index]. f_equal; [lia |].
      rewrite Hi, <- seq_shift, map_map. apply map_ext. intros j. lia.
    + intros line [<- | Hin]; [| now apply Hl].
      exists v, vx. cbn [r_key r_pred]. unfold Vertex_GetData.
      rewrite Hzd. split; [exact Hp |]. split; [exact Hvx | reflexivity].
  - injection H as <-. simpl. repeat split. intros line [].
Qed.

(** ** States of a traversal *)

Lemma same_shape_refl (x : Vertex) : same_shape x x.
Proof. unfold same_shape; auto. Qed.

Lemma same_shape_trans (x y z : Vertex) :
  same_shape x y -> same_shape y z -> same_shape x z.
Proof.
  unfold same_shape. intros (A1 & A2) (B1 & B2).
  repeat split; congruence.
Qed.

Lemma same_shape_entries (x y : Vertex) :
  same_shape x y -> entries y = entries x.
Proof.
  unfold same_shape, entries. intros (_ & H).
  destruct (neighbors x), (neighbors y); simpl in H; congruence.
Qed.

Lemma same_but_cursor_refl (x : Vertex) : same_but_cursor x x.
Proof. unfold same_but_cursor. auto using same_shape_refl. Qed.

Lemma same_but_cursor_trans (x y z : Vertex) :
  same_but_cursor x y -> same_but_cursor y z -> same_but_cursor x z.
Proof.
  unfold same_but_cursor. intros (A0 & A1 & A2 & A3 & A4) (B0 & B1 & B2 & B3 & B4).
  split; [eapply same_shape_trans; eassumption |]. repeat split; congruence.
Qed.

Lemma evolves_refl (g : Graph) : evolves g g.
Proof.
  unfold evolves. repeat split; auto; intros i x H; exists x;
    auto using same_shape_refl.
Qed.

Lemma evolves_trans (g1 g2 g3 : Graph) :
  evolves g1 g2 -> evolves g2 g3 -> evolves g1 g3.
Proof.
  intros (A1 & A2 & A3 & A4 & A5) (B1 & B2 & B3 & B4 & B5).
  unfold evolves. repeat split; try congruence.
  - intros i x H. destruct (A4 i x H) as (y & Hy & Sy).
    destruct (B4 i y Hy) as (z & Hz & Sz).
    exists z. split; [assumption | eapply same_shape_trans; eassumption].
  - intros i z H. destruct (B5 i z H) as (y & Hy & Sy).
    destruct (A5 i y Hy) as (x & Hx & Sx).
    exists x. split; [assumption | eapply same_shape_trans; eassumption].
Qed.

Lemma evolves_store (g : Graph) (p : Z) (x y : Vertex) :
  load g p = Ok x -> same_shape x y -> evolves g (store g p y).
Proof.
  intros Hx Hs. pose proof (aload_bound _ _ _ Hx) as Hb.
  unfold evolves. repeat split; auto.
  - intros i z Hz. destruct (Z.eq_dec p i) as [<- | Hne].
    + rewrite (load_store_eq _ _ y _ Hx). exists y. split; congruence.
    + rewrite load_store_ne by (auto; lia). exists z.
      auto using same_shape_refl.
  - intros i z Hz. destruct (Z.eq_dec p i) as [<- | Hne].
    + rewrite (load_store_eq _ _ y _ Hx) in Hz. injection Hz as <-. now exists x.
    + rewrite load_store_ne in Hz by (auto; lia). exists z.
      auto using same_shape_refl.
Qed.

Lemma evolves_len (g g' : Graph) : evolves g g' -> len g' = len g.
Proof. intros (_ & H & _). exact H. Qed.

Lemma color_at_load (g : Graph) (i : Z) (x : Vertex) :
  load g i = Ok x -> color_at g i = Some (color x).
Proof. unfold color_at. now intros ->. Qed.

Lemma is_white_load (g : Graph) (i : Z) (x : Vertex) :
  load g i = Ok x -> is_white g i = eGraphColors_eqb (color x) WHITE.
Proof.
  intros H. unfold is_white. rewrite (color_at_load _ _ _ H).
  now destruct (color x).
Qed.

Lemma same_load_white (g g' : Graph) (i : Z) :
  load g' i = load g i -> is_white g' i = is_white g i.
Proof. unfold is_white, color_at. now intros ->. Qed.

(** ** The cursor of a vertex *)

Lemma Vertex_Next_Ok (x y : Vertex) :
  Vertex_Next x = Ok y ->
  same_but_cursor x y /\ cursor_of y = S (cursor_of x) /\
  (cursor_of x < length (entries x))%nat.
Proof.
  unfold Vertex_Next, entries, cursor_of, List_Cursor_next, List_Cursor_end.
  destruct (neighbors x) as [l|] eqn:E; [| discriminate].
  intros H. inv_run H. inv_run Ha. injection Ha as <-. injection H as <-.
  apply assert_Ok in Ha0. apply negb_true_iff, Nat.leb_gt in Ha0.
  unfold same_but_cursor, same_shape; simpl. rewrite E. simpl. auto 12.
Qed.

Lemma Vertex_Start_Ok (x y : Vertex) :
  Vertex_Start x = Ok y -> same_but_cursor x y /\ cursor_of y = 0%nat.
Proof.
  unfold Vertex_Start, cursor_of.
  destruct (neighbors x) as [l|] eqn:E; [| discriminate].
  intros H. injection H as <-.
  unfold same_but_cursor, same_shape; simpl. rewrite E. simpl. auto 12.
Qed.

Lemma same_shape_set_neighbors (x : Vertex) (l l' : List) :
  neighbors x = Some l -> items l' = items l ->
  same_shape x (set_neighbors x (Some l')).
Proof.
  intros Hl Hi. unfold same_shape. simpl. rewrite Hl. simpl. now rewrite Hi.
Qed.

Lemma Vertex_Next_run (x : Vertex) (l : List) :
  neighbors x = Some l -> (cursor l < length (items l))%nat ->
  Vertex_Next x =
  Ok (set_neighbors x (Some {| items := items l; cursor := S (cursor l) |})).
Proof.
  intros Hl Hc. unfold Vertex_Next, List_Cursor_next, List_Cursor_end.
  rewrite Hl. destruct (Nat.leb_spec (length (items l)) (cursor l)); [lia |].
  reflexivity.
Qed.

(** ** Runs *)

Lemma step_result_Ok {A B : Type} (g : Graph) (m : outcome A) (k : A -> run B) (b : B) :
  result (step g m k) = Ok b -> exists a, m = Ok a /\ result (k a) = Ok b.
Proof.
  destruct m as [a|e]; simpl; intros H; [now exists a | discriminate].
Qed.

Lemma and_then_result_Ok {A B : Type} (r : run A) (k : Graph * A -> run B) (b : B) :
  result (and_then r k) = Ok b ->
  exists a, result r = Ok a /\ result (k (graph_left r, a)) = Ok b.
Proof.
  unfold and_then. destruct (result r) as [a|e]; simpl; intros H;
    [now exists a | discriminate].
Qed.

Lemma and_then_returns {A B : Type} (g : Graph) (a : A) (k : Graph * A -> run B) :
  and_then (returns g a) k = k (g, a).
Proof. reflexivity. Qed.

Lemma and_then_stops {A B : Type} (g : Graph) (e : error) (k : Graph * A -> run B) :
  and_then (stops g e) k = stops g e.
Proof. reflexivity. Qed.

Ltac inv_step H :=
  let a := fresh "a" in
  let Ha := fresh "Ha" in
  first [ apply step_result_Ok in H; destruct H as (a & Ha & H)
        | apply and_then_result_Ok in H; destruct H as (a & Ha & H) ].

(** ** The reset loop and well-formed graphs *)

Lemma aload_Err (vs : list Vertex) (p : Z) (e : error) :
  aload vs p = Err e -> e = InvalidAccess.
Proof.
  unfold aload. destruct (p <? 0); [congruence |].
  destruct (nth_error vs (Z.to_nat p)); congruence.
Qed.

Lemma GetVertexByKey_loop_evolves (g g' : Graph) (key : Z) (n : nat) :
  evolves g g' ->
  forall i,
  GetVertexByKey_loop n i (vertices g') key = GetVertexByKey_loop n i (vertices g) key.
Proof.
  intros (_ & _ & _ & A & B). induction n as [|n IH]; intros i; simpl; [reflexivity |].
  fold (load g i). fold (load g' i).
  destruct (load g i) as [x|e] eqn:Hx.
  - destruct (A i x Hx) as (y & -> & (Hd & _)). simpl. rewrite Hd, IH. reflexivity.
  - destruct (load g' i) as [y|e'] eqn:Hy.
    + destruct (B i y Hy) as (x & Hx' & _). congruence.
    + simpl. apply aload_Err in Hx, Hy. congruence.
Qed.

Lemma GetVertexByKey_evolves (g g' : Graph) (key : Z) :
  evolves g g' -> Graph_GetVertexByKey g' key = Graph_GetVertexByKey g key.
Proof.
  intros E. unfold Graph_GetVertexByKey, Graph_GetLen.
  rewrite (evolves_len _ _ E). now apply GetVertexByKey_loop_evolves.
Qed.

Lemma reset_vertex_shape (x : Vertex) : same_shape x (reset_vertex x).
Proof. unfold same_shape. simpl. auto. Qed.

(** The reset loop runs over the populated slots of a graph that has them,
    and resets each of them. *)
Lemma dfs_topol_reset_runs (n : nat) :
  forall i g,
  0 <= i -> i + Z.of_nat n <= len g -> len g <= Z.of_nat (length (vertices g)) ->
  exists g',
    dfs_topol_reset n i g = returns g' tt /\
    evolves g g' /\
    (forall j, i <= j < i + Z.of_nat n ->
       exists x, load g j = Ok x /\ load g' j = Ok (reset_vertex x)) /\
    (forall j, ~ (i <= j < i + Z.of_nat n) -> load g' j = load g j).
Proof.
  induction n as [|n IH]; intros i g Hi Hn Hlen.
  - exists g. split; [reflexivity |]. split; [apply evolves_refl |].
    split; [lia | reflexivity].
  - cbn [dfs_topol_reset]. unfold Graph_GetVertexByIndex.
    assert (((0 <=? i) && (i <? len g)) = true) as ->
      by (apply andb_true_iff; split; [apply Z.leb_le | apply Z.ltb_lt]; lia).
    cbn [assert bind step].
    destruct (aload_in_range (vertices g) i ltac:(lia)) as [x Hx].
    change (load g i = Ok x) in Hx.
    rewrite (modify_run _ _ _ _ Hx). cbn [step].
    set (g1 := store g i (reset_vertex x)).
    assert (E1 : evolves g g1)
      by (eapply evolves_store; [eassumption | apply reset_vertex_shape]).
    destruct (IH (i + 1) g1) as (g' & Hrun & E & Hin & Hout).
    + lia.
    + rewrite (evolves_len _ _ E1). lia.
    + unfold g1. cbn [len store vertices]. rewrite upd_length. lia.
    + exists g'. split; [exact Hrun |].
      split; [eapply evolves_trans; eassumption |]. split.
      * intros j Hj. destruct (Z.eq_dec j i) as [-> | Hne].
        -- exists x. split; [assumption |].
           rewrite Hout by lia. eapply load_store_eq; eassumption.
        -- destruct (Hin j ltac:(lia)) as (y & Hy & Hy').
           exists y. split; [| assumption].
           rewrite <- Hy. symmetry. apply load_store_ne; [lia | congruence].
      * intros j Hj. rewrite Hout by lia. apply load_store_ne; lia.
Qed.

Lemma wf_evolves (g g' : Graph) : evolves g g' -> wf g -> wf g'.
Proof.
  intros E [W1 W2]. pose proof E as (_ & L & _ & A & B). split.
  - intros i Hi. rewrite L in Hi. destruct (W1 i Hi) as [x Hx].
    destruct (A i x Hx) as (y & Hy & _). now exists y.
  - intros i y d Hi Hy Hd. rewrite L in *.
    destruct (B i y Hy) as (x & Hx & Hsh).
    rewrite (same_shape_entries _ _ Hsh) in Hd. eauto.
Qed.

Lemma graph_ok_wf (g : Graph) : graph_ok g = true -> wf g.
Proof.
  unfold graph_ok. intros H. apply andb_true_iff in H as [Hs Hall].
  apply storage_ok_spec in Hs as [Hlen Hrange].
  rewrite forallb_forall in Hall. split.
  - intros i Hi. apply aload_in_range. lia.
  - intros i x d Hi Hx Hd. apply aload_Ok in Hx as [_ Hx].
    assert (Hin : In x (firstn (Z.to_nat (len g)) (vertices g))).
    { apply (nth_error_In _ (Z.to_nat i)). rewrite nth_error_firstn.
      destruct (Nat.ltb_spec (Z.to_nat i) (Z.to_nat (len g))); [assumption | lia]. }
    specialize (Hall x Hin). rewrite forallb_forall in Hall.
    specialize (Hall d Hd). apply andb_true_iff in Hall as [H1 H2].
    apply Z.leb_le in H1. apply Z.ltb_lt in H2. lia.
Qed.

(** ** White vertices *)

Lemma filter_length_mono (f h : Z -> bool) (l : list Z) :
  (forall x, In x l -> f x = true -> h x = true) ->
  (length (filter f l) <= length (filter h l))%nat.
Proof.
  induction l as [|a l IH]; intros H; simpl; [lia |].
  pose proof (IH (fun x Hx => H x (or_intror Hx))) as IH'.
  destruct (f a) eqn:Fa.
  - rewrite (H a (or_introl eq_refl) Fa). simpl. lia.
  - destruct (h a); simpl; lia.
Qed.

Lemma filter_length_strict (f h : Z -> bool) (l : list Z) (w : Z) :
  (forall x, In x l -> f x = true -> h x = true) ->
  In w l -> h w = true -> f w = false ->
  (length (filter f l) < length (filter h l))%nat.
Proof.
  induction l as [|a l IH]; intros H Hin Hh Hf; simpl; [destruct Hin |].
  pose proof (filter_length_mono f h l (fun x Hx => H x (or_intror Hx))) as Hle.
  destruct Hin as [-> | Hin].
  - rewrite Hf, Hh. simpl. lia.
  - pose proof (IH (fun x Hx => H x (or_intror Hx)) Hin Hh Hf) as IH'.
    destruct (f a) eqn:Fa.
    + rewrite (H a (or_introl eq_refl) Fa). simpl. lia.
    + destruct (h a); simpl; lia.
Qed.

Lemma In_slots_from (n : nat) (i : Z) :
  In i (slots_from 0 n) <-> 0 <= i < Z.of_nat n.
Proof.
  unfold slots_from. simpl Z.to_nat. rewrite in_map_iff. split.
  - intros (j & <- & Hj). apply in_seq in Hj. lia.
  - intros H. exists (Z.to_nat i). split; [lia | apply in_seq; lia].
Qed.

Lemma later_refl (g : Graph) : later g g.
Proof.
  split; [apply evolves_refl |]. split; [auto |].
  intros i x y Hx Hy. rewrite Hx in Hy. injection Hy as <-. auto.
Qed.

Lemma later_trans (g1 g2 g3 : Graph) : later g1 g2 -> later g2 g3 -> later g1 g3.
Proof.
  intros (E1 & H1 & F1) (E2 & H2 & F2).
  split; [eapply evolves_trans; eassumption |]. split; [auto |].
  intros i x z Hx Hz. destruct E1 as (_ & _ & _ & A & _).
  destruct (A i x Hx) as (y & Hy & _).
  destruct (F1 i x y Hx Hy) as [Ha Hb]. destruct (F2 i y z Hy Hz) as [Hc Hd].
  split; congruence.
Qed.

Lemma later_store (g : Graph) (p : Z) (x y : Vertex) :
  load g p = Ok x -> same_shape x y -> (color y = WHITE -> color x = WHITE) ->
  finish_time y = finish_time x -> distance y = distance x ->
  later g (store g p y).
Proof.
  intros Hx Hs Hc Hf Hd. pose proof (aload_bound _ _ _ Hx) as Hb.
  split; [eapply evolves_store; eassumption |]. split.
  - intros i Hw. destruct (Z.eq_dec i p) as [-> | Hne].
    + rewrite (is_white_load _ _ _ (load_store_eq _ _ y _ Hx)) in Hw.
      rewrite (is_white_load _ _ _ Hx).
      destruct (color y); try discriminate. now rewrite Hc.
    + rewrite <- Hw. symmetry. apply same_load_white.
      apply load_store_ne; [lia | congruence].
  - intros i u w Hu Hw. destruct (Z.eq_dec i p) as [-> | Hne].
    + rewrite (load_store_eq _ _ y _ Hx) in Hw. injection Hw as <-.
      rewrite Hx in Hu. injection Hu as <-. auto.
    + rewrite load_store_ne in Hw by (lia || congruence).
      rewrite Hu in Hw. injection Hw as <-. auto.
Qed.

Lemma later_evolves (g g' : Graph) : later g g' -> evolves g g'.
Proof. now intros [E _]. Qed.

Lemma later_wf (g g' : Graph) : later g g' -> wf g -> wf g'.
Proof. intros [E _]. now apply wf_evolves. Qed.

Lemma later_len (g g' : Graph) : later g g' -> len g' = len g.
Proof. intros [E _]. now apply evolves_len. Qed.

Lemma later_not_white (g g' : Graph) (i : Z) :
  later g g' -> is_white g i = false -> is_white g' i = false.
Proof.
  intros (_ & H & _) Hw. destruct (is_white g' i) eqn:E; [| reflexivity].
  rewrite (H i E) in Hw. discriminate.
Qed.

Lemma white_count_later (g g' : Graph) :
  later g g' -> (white_count g' <= white_count g)%nat.
Proof.
  intros (E & H & _). unfold white_count. rewrite (evolves_len _ _ E).
  apply filter_length_mono. auto.
Qed.

Lemma white_count_less (g g' : Graph) (w : Z) :
  later g g' -> 0 <= w < len g ->
  is_white g w = true -> is_white g' w = false ->
  (white_count g' < white_count g)%nat.
Proof.
  intros (E & H & _) Hw Hg Hg'. unfold white_count. rewrite (evolves_len _ _ E).
  apply (filter_length_strict _ _ _ w); auto.
  apply In_slots_from. lia.
Qed.

Lemma white_count_len (g : Graph) : (white_count g <= Z.to_nat (len g))%nat.
Proof.
  unfold white_count, slots_from.
  etransitivity; [apply filter_length_le |].
  rewrite length_map, length_seq. lia.
Qed.

(** ** Black vertices *)

Lemma no_new_black_refl (g : Graph) (b : option Z) : no_new_black g g b.
Proof. intros i H. now left. Qed.

Lemma no_new_black_trans (g1 g2 g3 : Graph) (b : option Z) :
  no_new_black g1 g2 None -> no_new_black g2 g3 b -> no_new_black g1 g3 b.
Proof.
  intros H1 H2 i H. destruct (H2 i H) as [H' | H']; [| now right].
  destruct (H1 i H') as [H'' | H'']; [now left | discriminate].
Qed.

Lemma no_new_black_store (g : Graph) (p : Z) (x y : Vertex) :
  load g p = Ok x -> (color y = BLACK -> color x = BLACK) ->
  no_new_black g (store g p y) None.
Proof.
  intros Hx Hc i H. left. pose proof (aload_bound _ _ _ Hx) as Hb.
  destruct (Z.eq_dec i p) as [-> | Hne].
  - rewrite (color_at_load _ _ _ (load_store_eq _ _ y _ Hx)) in H.
    injection H as H. rewrite (color_at_load _ _ _ Hx). now rewrite Hc.
  - rewrite <- H. unfold color_at.
    rewrite load_store_ne by (lia || congruence). reflexivity.
Qed.

(** ** The visits stop at their enqueue *)

(** No visit returns: its last statement applies [Queue_Enqueue] to the
    address of the parameter [listado]. *)
Lemma dfs_topol_traverse_not_Ok (fuel : nat) (g : Graph) (v t : Z)
    (listado : QueuePtr) (q : Queue) :
  exists e, result (dfs_topol_traverse fuel g v t listado q) = Err e.
Proof.
  destruct (result (dfs_topol_traverse fuel g v t listado q)) as [r|e] eqn:H;
    [| eauto].
  exfalso. destruct fuel as [|fuel]; [discriminate |].
  cbn [dfs_topol_traverse] in H. cbv zeta in H.
  do 4 inv_step H. destruct a2 as [t1 q1].
  do 3 inv_step H. apply step_result_Ok in H as (q2 & Hq & _). discriminate Hq.
Qed.

Lemma stopped_in_earlier (g0 g : Graph) (r : run visit_value) :
  later g0 g -> no_new_black g0 g None -> stopped_in g r -> stopped_in g0 r.
Proof.
  intros L N (g' & b & Hr & L' & Hb & Hc & N').
  exists g', b. split; [exact Hr |]. split; [eapply later_trans; eassumption |].
  split; [now rewrite <- (later_len _ _ L) |]. split; [exact Hc |].
  eapply no_new_black_trans; eassumption.
Qed.

Lemma finish_stops (g : Graph) (v t : Z) (listado : QueuePtr) (q : Queue) :
  wf g -> 0 <= v < len g ->
  stopped_in g
    (g <-[g] modify g v (fun x => Vertex_SetColor x BLACK);;
     g <-[g] modify g v (fun x => Vertex_SetDiscovery_time x (t + 1));;
     vx <-[g] load g v;;
     q <-[g] Queue_Enqueue_at (AddressOf listado) q (data vx);;
     returns g (t + 1, q)).
Proof.
  intros [W _] Hv. destruct (W v Hv) as [x Hx].
  rewrite (modify_run _ _ _ _ Hx). cbn [step].
  set (x1 := Vertex_SetColor x BLACK).
  pose proof (load_store_eq g v x1 x Hx) as H1.
  rewrite (modify_run _ _ _ _ H1). cbn [step].
  set (x2 := Vertex_SetDiscovery_time x1 (t + 1)).
  pose proof (load_store_eq _ v x2 _ H1) as H2.
  rewrite H2. cbn [step Queue_Enqueue_at].
  exists (store (store g v x1) v x2), v.
  split; [reflexivity |]. split; [| split; [exact Hv | split]].
  - apply (later_trans _ (store g v x1)).
    + apply (later_store g v x); auto; try (split; reflexivity); try discriminate.
    + apply (later_store _ v x1); auto. split; reflexivity.
  - rewrite (color_at_load _ _ _ H2). reflexivity.
  - intros i H. destruct (Z.eq_dec i v) as [-> | Hne]; [now right | left].
    rewrite <- H. unfold color_at.
    rewrite !load_store_ne by (lia || congruence). reflexivity.
Qed.

Section Stop.

Variable rec : Graph -> Z -> Z -> QueuePtr -> Queue -> run visit_value.
Variable bound : nat.
Hypothesis rec_stops :
  forall g w t listado q,
    wf g -> 0 <= w < len g -> (white_count g < bound)%nat ->
    stopped_in g (rec g w t listado q).

(** The neighbor loop of [v] either meets a white neighbor, in whose visit
    the run stops, or reaches the end of the list having moved the cursor
    only. *)
Lemma visit_neighbors_stops (k : nat) :
  forall g v t listado q x l,
  wf g -> 0 <= v < len g -> (white_count g <= bound)%nat ->
  load g v = Ok x -> neighbors x = Some l ->
  (length (items l) - cursor l < k)%nat ->
  stopped_in g (visit_neighbors rec k g v t listado q) \/
  exists g',
    visit_neighbors rec k g v t listado q = returns g' (t, q) /\
    later g g' /\ no_new_black g g' None.
Proof.
  induction k as [|k IH]; intros g v t listado q x l W Hv Hb Hx Hl Hk; [lia |].
  cbn [visit_neighbors]. rewrite Hx. cbn [step].
  unfold Vertex_End. rewrite Hl. cbn [step]. unfold List_Cursor_end.
  destruct (Nat.leb_spec (length (items l)) (cursor l)) as [Hend | Hmore].
  { right. exists g. split; [reflexivity |].
    split; [apply later_refl | apply no_new_black_refl]. }
  unfold Vertex_GetNeighborIndex, List_Cursor_get. rewrite Hl.
  destruct (nth_error (items l) (cursor l)) as [d|] eqn:Hd;
    [| apply nth_error_None in Hd; lia].
  cbn [step].
  assert (Hin : In d (entries x))
    by (unfold entries; rewrite Hl; eapply nth_error_In; eassumption).
  pose proof (proj2 W v x d Hv Hx Hin) as Hr.
  unfold Graph_GetVertexByIndex.
  assert (((0 <=? index d) && (index d <? len g)) = true) as ->
    by (apply andb_true_iff; split; [apply Z.leb_le | apply Z.ltb_lt]; lia).
  cbn [assert bind step].
  destruct (proj1 W (index d) Hr) as [wx Hwx]. rewrite Hwx. cbn [step].
  destruct (eGraphColors_eqb (Vertex_GetColor wx) WHITE) eqn:Hc.
  - left. rewrite (modify_run _ _ _ _ Hwx). cbn [step].
    set (g2 := store g (index d) (Vertex_SetColor wx GRAY)).
    assert (L2 : later g g2)
      by (apply (later_store g _ wx); auto; try (split; reflexivity); try discriminate).
    assert (N2 : no_new_black g g2 None)
      by (apply (no_new_black_store g _ wx); [assumption | discriminate]).
    pose proof (later_wf _ _ L2 W) as W2.
    destruct (proj1 W2 v ltac:(rewrite (later_len _ _ L2); exact Hv)) as [vx Hvx].
    rewrite Hvx. cbn [step].
    pose proof (load_store_eq g (index d) (Vertex_SetColor wx GRAY) wx Hwx) as Hw2.
    fold g2 in Hw2. rewrite (modify_run _ _ _ _ Hw2). cbn [step].
    set (g3 := store g2 (index d) _).
    assert (L23 : later g2 g3)
      by (apply (later_store g2 _ (Vertex_SetColor wx GRAY)); auto; try (split; reflexivity); try discriminate).
    assert (N23 : no_new_black g2 g3 None)
      by (apply (no_new_black_store g2 _ (Vertex_SetColor wx GRAY));
          [assumption | discriminate]).
    assert (L3 : later g g3) by (eapply later_trans; eassumption).
    assert (N3 : no_new_black g g3 None) by (eapply no_new_black_trans; eassumption).
    assert (Hstop : stopped_in g3 (rec g3 (index d) t listado q)).
    { apply rec_stops.
      + now apply (later_wf g).
      + rewrite (later_len _ _ L3). exact Hr.
      + apply Nat.lt_le_trans with (white_count g); [| exact Hb].
        apply (white_count_less g g3 (index d)); auto.
        * rewrite (is_white_load _ _ _ Hwx). exact Hc.
        * unfold g3. rewrite (is_white_load _ _ _ (load_store_eq _ _ _ _ Hw2)).
          reflexivity. }
    apply (stopped_in_earlier g g3); [assumption | assumption |].
    destruct Hstop as (g' & b & Hrun & Hrest). rewrite Hrun, and_then_stops.
    exists g', b. split; [reflexivity | exact Hrest].
  - rewrite and_then_returns.
    rewrite (modifyM_run _ _ _ _ _ Hx (Vertex_Next_run x l Hl Hmore)). cbn [step].
    set (x' := set_neighbors x (Some {| items := items l; cursor := S (cursor l) |})).
    assert (L4 : later g (store g v x')).
    { apply (later_store g v x); auto.
      now apply (same_shape_set_neighbors x l). }
    assert (N4 : no_new_black g (store g v x') None)
      by (apply (no_new_black_store g v x); auto).
    destruct (IH (store g v x') v t listado q x'
                {| items := items l; cursor := S (cursor l) |})
      as [H | (g' & H & L & N)].
    + now apply (later_wf g).
    + rewrite (later_len _ _ L4). exact Hv.
    + pose proof (white_count_later _ _ L4). lia.
    + eapply load_store_eq; eassumption.
    + reflexivity.
    + simpl. lia.
    + left. now apply (stopped_in_earlier g (store g v x')).
    + right. exists g'. split; [exact H |].
      split; [eapply later_trans; eassumption
             | eapply no_new_black_trans; eassumption].
Qed.

End Stop.

(** On a well-formed graph a visit with room for the white vertices stops
    at an enqueue, its own or that of the first descendant to finish, which
    is the one vertex that has become black; the visited vertex is no longer
    white. *)
Lemma dfs_topol_traverse_stops (fuel : nat) :
  forall g v t listado q,
  wf g -> 0 <= v < len g -> (white_count g <= fuel)%nat ->
  stopped_in g (dfs_topol_traverse (S fuel) g v t listado q) /\
  is_white (graph_left (dfs_topol_traverse (S fuel) g v t listado q)) v = false.
Proof.
  induction fuel as [fuel IH] using lt_wf_ind.
  intros g v t listado q W Hv Hb.
  assert (Hrec : forall g w t listado q,
            wf g -> 0 <= w < len g -> (white_count g < fuel)%nat ->
            stopped_in g (dfs_topol_traverse fuel g w t listado q)).
  { intros g0 w t0 l0 q0 W0 Hw0 Hb0. destruct fuel as [|f]; [lia |].
    apply (IH f); [lia | assumption | assumption | lia]. }
  cbn [dfs_topol_traverse]. cbv zeta.
  destruct (proj1 W v Hv) as [x Hx].
  rewrite (modify_run _ _ _ _ Hx). cbn [step].
  set (x1 := Vertex_SetDiscovery_time x (t + 1)).
  pose proof (load_store_eq g v x1 x Hx) as H1.
  assert (L1 : later g (store g v x1))
    by (apply (later_store g v x); auto; split; reflexivity).
  assert (N1 : no_new_black g (store g v x1) None)
    by (apply (no_new_black_store g v x); auto).
  rewrite (modify_run _ _ _ _ H1). cbn [step].
  set (x2 := Vertex_SetColor x1 GRAY).
  pose proof (load_store_eq _ v x2 _ H1) as H2.
  assert (L12 : later (store g v x1) (store (store g v x1) v x2))
    by (apply (later_store _ v x1); auto; try (split; reflexivity); try discriminate).
  assert (N12 : no_new_black (store g v x1) (store (store g v x1) v x2) None)
    by (apply (no_new_black_store _ v x1); [assumption | discriminate]).
  set (g2 := store (store g v x1) v x2) in *.
  assert (L2 : later g g2) by (eapply later_trans; eassumption).
  assert (N2 : no_new_black g g2 None) by (eapply no_new_black_trans; eassumption).
  rewrite H2. cbn [step].
  pose proof (later_wf _ _ L2 W) as W2.
  assert (Hv2 : 0 <= v < len g2) by (rewrite (later_len _ _ L2); exact Hv).
  assert (Hg2 : is_white g2 v = false)
    by (rewrite (is_white_load _ _ _ H2); reflexivity).
  assert (Hfinal : forall r, stopped_in g2 r ->
            stopped_in g r /\ is_white (graph_left r) v = false).
  { intros r Hr. split; [now apply (stopped_in_earlier g g2) |].
    destruct Hr as (g' & b & -> & L' & _). cbn [graph_left stops].
    now apply (later_not_white g2). }
  apply Hfinal.
  destruct (Vertex_HasNeighbors x2) eqn:Hn.
  - unfold Vertex_HasNeighbors in Hn.
    destruct (neighbors x2) as [l|] eqn:Hl; [| discriminate].
    assert (Hstart : Vertex_Start x2
                     = Ok (set_neighbors x2 (Some (List_Cursor_front l))))
      by (unfold Vertex_Start; now rewrite Hl).
    rewrite (modifyM_run _ _ _ _ _ H2 Hstart). cbn [step].
    set (x3 := set_neighbors x2 (Some (List_Cursor_front l))).
    assert (L3 : later g2 (store g2 v x3)).
    { apply (later_store g2 v x2); auto.
      now apply (same_shape_set_neighbors x2 l). }
    assert (N3 : no_new_black g2 (store g2 v x3) None)
      by (apply (no_new_black_store g2 v x2); auto).
    apply (stopped_in_earlier g2 (store g2 v x3)); [assumption | assumption |].
    destruct (visit_neighbors_stops (dfs_topol_traverse fuel) fuel Hrec
                (S (neighbor_count x2)) (store g2 v x3) v (t + 1) listado q x3
                (List_Cursor_front l))
      as [H | (g' & H & L & N)].
    + now apply (later_wf g2).
    + rewrite (later_len _ _ L3). exact Hv2.
    + pose proof (white_count_later _ _ L3).
      pose proof (white_count_later _ _ L2). lia.
    + eapply load_store_eq; eassumption.
    + reflexivity.
    + unfold neighbor_count. rewrite Hl. simpl. lia.
    + destruct H as (g' & b & Hrun & Hrest). rewrite Hrun, and_then_stops.
      exists g', b. split; [reflexivity | exact Hrest].
    + rewrite H, and_then_returns.
      apply (stopped_in_earlier _ g'); [assumption | assumption |].
      apply finish_stops; [exact (later_wf _ _ L (later_wf _ _ L3 W2)) |].
      rewrite (later_len _ _ L), (later_len _ _ L3). exact Hv2.
  - rewrite and_then_returns. now apply finish_stops.
Qed.

(** ** [dfs_topol] as a whole *)

Lemma graph_ok_storage (g : Graph) : graph_ok g = true -> storage_ok g = true.
Proof. unfold graph_ok. intros H. now apply andb_true_iff in H as [Hs _]. Qed.

Lemma dfs_topol_init_Ok (g : Graph) (start : Z) (q : Queue) :
  result (dfs_topol_init g start) = Ok q -> q = Queue_New MAX_VERTICES.
Proof.
  unfold dfs_topol_init. intros H. inv_step H. cbv zeta in H.
  do 3 inv_step H. injection H as <-. reflexivity.
Qed.

(** The steps of [dfs_topol] before the visit, when the start key is the
    key of a vertex. *)
Lemma dfs_topol_init_runs (g : Graph) (start s : Z) :
  storage_ok g = true ->
  Graph_GetVertexByKey g start = Ok (Some s) ->
  exists g0 x,
    dfs_topol_reset (Z.to_nat (Graph_GetLen g)) 0 g = returns g0 tt /\
    evolves g g0 /\
    (forall i, 0 <= i < len g ->
       exists x, load g i = Ok x /\ load g0 i = Ok (reset_vertex x)) /\
    (forall i, ~ 0 <= i < len g -> load g0 i = load g i) /\
    load g0 s = Ok (reset_vertex x) /\
    dfs_topol_init g start
    = returns (store g0 s (Vertex_SetColor (reset_vertex x) GRAY))
              (Queue_New MAX_VERTICES).
Proof.
  intros Hs Hk. pose proof (storage_ok_spec g Hs) as [Hlen Hrange].
  destruct (dfs_topol_reset_runs (Z.to_nat (len g)) 0 g)
    as (g0 & Hreset & E0 & Hin & Hout); [lia | lia | lia |].
  destruct (GetVertexByKey_Some _ _ _ Hk) as (Hr & _).
  destruct (Hin s ltac:(lia)) as (x & _ & Hx0).
  exists g0, x. split; [exact Hreset |]. split; [exact E0 |].
  split; [intros i Hi; apply Hin; lia |].
  split; [intros i Hi; apply Hout; lia |]. split; [exact Hx0 |].
  unfold dfs_topol_init, Graph_GetLen. rewrite Hreset, and_then_returns. cbv zeta.
  rewrite (GetVertexByKey_evolves _ _ _ E0), Hk. cbn [step deref].
  rewrite (modify_run _ _ _ _ Hx0). reflexivity.
Qed.

(** With a start key that no vertex has, [dfs_topol] stops at the write
    through the NULL that [Graph_GetVertexByKey] returned, after the reset
    loop. *)
Lemma dfs_topol_visit_null (g : Graph) (start : Z) :
  storage_ok g = true ->
  Graph_GetVertexByKey g start = Ok None ->
  exists g0,
    dfs_topol_reset (Z.to_nat (Graph_GetLen g)) 0 g = returns g0 tt /\
    dfs_topol_visit g start = stops g0 InvalidAccess /\
    dfs_topol g start = stops g0 InvalidAccess.
Proof.
  intros Hs Hnone. pose proof (storage_ok_spec g Hs) as [Hlen Hrange].
  destruct (dfs_topol_reset_runs (Z.to_nat (len g)) 0 g)
    as (g0 & Hreset & E0 & _); [lia | lia | lia |].
  exists g0. split; [exact Hreset |].
  assert (Hvisit : dfs_topol_visit g start = stops g0 InvalidAccess).
  { unfold dfs_topol_visit, dfs_topol_init, Graph_GetLen.
    rewrite Hreset, and_then_returns. cbv zeta.
    rewrite (GetVertexByKey_evolves _ _ _ E0), Hnone. reflexivity. }
  split; [exact Hvisit |]. unfold dfs_topol. rewrite Hvisit. reflexivity.
Qed.

(** With the key of a vertex, on a well-formed graph, [dfs_topol] stops in
    the visit. *)
Lemma dfs_topol_visit_stops (g : Graph) (start s : Z) :
  graph_ok g = true ->
  Graph_GetVertexByKey g start = Ok (Some s) ->
  exists g1 g' b,
    dfs_topol_init g start = returns g1 (Queue_New MAX_VERTICES) /\
    evolves g g1 /\
    (forall i, 0 <= i < len g ->
       exists x, load g i = Ok x /\
         load g1 i = Ok (if i =? s then Vertex_SetColor (reset_vertex x) GRAY
                         else reset_vertex x)) /\
    dfs_topol_visit g start = stops g' InvalidAccess /\
    dfs_topol g start = stops g' InvalidAccess /\
    later g1 g' /\
    0 <= b < len g /\ color_at g' b = Some BLACK /\
    no_new_black g1 g' (Some b) /\
    is_white g' s = false.
Proof.
  intros Hok Hk. pose proof (graph_ok_wf g Hok) as W.
  destruct (dfs_topol_init_runs g start s (graph_ok_storage g Hok) Hk)
    as (g0 & x0 & _ & E0 & Hin & _ & Hx0 & Hinit).
  set (g1 := store g0 s (Vertex_SetColor (reset_vertex x0) GRAY)) in *.
  assert (E01 : evolves g0 g1)
    by (eapply evolves_store; [eassumption | split; reflexivity]).
  assert (E1 : evolves g g1) by (eapply evolves_trans; eassumption).
  destruct (GetVertexByKey_Some _ _ _ Hk) as (Hs & _).
  destruct (dfs_topol_traverse_stops (Z.to_nat (len g1)) g1 s 0
              (AddressOf ToQueue) (Queue_New MAX_VERTICES))
    as [(g' & b & Hrun & L & Hb & Hc & N) Hw].
  { now apply (wf_evolves g). }
  { rewrite (evolves_len _ _ E1). exact Hs. }
  { apply white_count_len. }
  assert (Hvisit : dfs_topol_visit g start = stops g' InvalidAccess).
  { unfold dfs_topol_visit. rewrite Hinit, and_then_returns. cbv zeta.
    rewrite (GetVertexByKey_evolves _ _ _ E1), Hk. cbn [step deref].
    unfold Graph_GetLen. exact Hrun. }
  exists g1, g', b. split; [exact Hinit |]. split; [exact E1 |]. split.
  { intros i Hi. destruct (Hin i Hi) as (x & Hx & Hxr). exists x.
    split; [exact Hx |]. destruct (Z.eqb_spec i s) as [-> | Hne].
    - assert (Hr : reset_vertex x0 = reset_vertex x) by congruence.
      rewrite <- Hr. eapply load_store_eq; eassumption.
    - unfold g1. rewrite load_store_ne by (lia || congruence). exact Hxr. }
  split; [exact Hvisit |].
  split; [unfold dfs_topol; rewrite Hvisit; reflexivity |].
  split; [exact L |]. split; [now rewrite <- (evolves_len _ _ E1) |].
  split; [exact Hc |]. split; [exact N |].
  rewrite Hrun in Hw. exact Hw.
Qed.

Lemma dfs_topol_stops (g : Graph) (start : Z) :
  graph_ok g = true -> result (dfs_topol g start) = Err InvalidAccess.
Proof.
  intros Hok. pose proof (graph_ok_storage g Hok) as Hs.
  pose proof (storage_ok_spec g Hs) as [Hlen Hrange].
  destruct (GetVertexByKey_total g start ltac:(lia)) as [[s|] Hk].
  - destruct (dfs_topol_visit_stops g start s Hok Hk)
      as (g1 & g' & b & _ & _ & _ & _ & -> & _). reflexivity.
  - destruct (dfs_topol_visit_null g start Hs Hk) as (g0 & _ & _ & ->).
    reflexivity.
Qed.

Lemma dfs_topol_visit_not_Ok (g : Graph) (start : Z) :
  exists e, result (dfs_topol_visit g start) = Err e.
Proof.
  destruct (result (dfs_topol_visit g start)) as [r|e] eqn:H; [| eauto].
  exfalso. unfold dfs_topol_visit in H. inv_step H.
  cbv zeta in H. do 2 inv_step H.
  match type of H with
  | result (dfs_topol_traverse ?f ?g ?v ?t ?l ?q) = _ =>
      destruct (dfs_topol_traverse_not_Ok f g v t l q) as [e He]
  end.
  rewrite He in H. discriminate.
Qed.

Lemma dfs_topol_not_Ok (g : Graph) (start : Z) :
  exists e, result (dfs_topol g start) = Err e.
Proof.
  destruct (dfs_topol_visit_not_Ok g start) as [e He].
  exists e. unfold dfs_topol, and_then. rewrite He. reflexivity.
Qed.

(** * The claims about the traversal *)



(** C2: on a well-formed graph [dfs_topol] from the key of a vertex never
    reaches its report loop, so that it prints no line at all.  The loop
    itself, run on a queue of keys of the graph, does not print a line for
    each key: it stops when the line number reaches what is left in the
    queue, after the first half of the keys, rounded up. *)
Theorem report_loop_never_reached (g : Graph) (start s : Z) :
  graph_ok g = true ->
  Graph_GetVertexByKey g start = Ok (Some s) ->
  result (dfs_topol g start) = Err InvalidAccess /\
  forall lista : Queue,
    (forall key, In key (q_items lista) ->
       exists v, Graph_GetVertexByKey g key = Ok (Some v)) ->
    exists out,
      report_loop (S (length (q_items lista))) g 0 lista = Ok out /\
      Z.of_nat (length out) = (Queue_Len lista + 1) / 2 /\
      map r_key out = firstn (length out) (q_items lista) /\
      map r_index out = slots_from 0 (length out).
Proof.
  intros Hok Hk. split; [now apply dfs_topol_stops |].
  intros lista Hkeys.
  destruct (report_loop_runs g (S (length (q_items lista))) 0 lista) as [out Hout].
  - lia.
  - intros key Hin. destruct (Hkeys key Hin) as [v Hv].
    destruct (GetVertexByKey_Some _ _ _ Hv) as (_ & (x & Hx & _) & _).
    now exists v, x.
  - lia.
  - exists out. split; [exact Hout |].
    destruct (report_loop_lines _ _ _ _ _ Hout) as (Hkey & Hidx & _).
    split; [| split; [exact Hkey |]].
    + rewrite (report_loop_length _ _ _ _ _ Hout).
      assert (0 <= (Queue_Len lista - 0 + 1) / 2)
        by (apply Z.div_pos; unfold Queue_Len; lia).
      replace (Queue_Len lista - 0 + 1) with (Queue_Len lista + 1) in * by lia. lia.
    + rewrite Hidx. unfold slots_from. simpl Z.to_nat. apply map_ext. intros j. lia.
Qed.

Lemma report_loop_never_reached_witness :
  result (dfs_topol grafo 100) = Err InvalidAccess /\
  exists out,
    report_loop 7 grafo 0
      {| q_items := [900; 700; 600; 800; 400; 100]; q_capacity := MAX_VERTICES |}
    = Ok out /\
    Z.of_nat (length out) = 3 /\
    map r_key out = firstn (length out) [900; 700; 600; 800; 400; 100].
Proof.
  destruct (report_loop_never_reached grafo 100 0 eq_refl eq_refl) as [Hrun Hloop].
  split; [exact Hrun |].
  destruct (Hloop {| q_items := [900; 700; 600; 800; 400; 100];
                     q_capacity := MAX_VERTICES |})
    as (out & Hout & Hlen & Hkey & _).
  - intros key Hin. simpl in Hin.
    destruct Hin as [<- | [<- | [<- | [<- | [<- | [<- | []]]]]]];
      eexists; reflexivity.
  - exists out. split; [exact Hout |]. split; [exact Hlen | exact Hkey].
Defined.

(** C3: the recursive visit never returns, whatever the graph, the vertex
    and the pointer it is called with, because its last statement hands
    [Queue_Enqueue] the address of the parameter [listado].  On a
    well-formed graph that call is where the visit started by [dfs_topol]
    stops, and not an earlier failure or the bound of the recursion: a
    vertex has finished, it is black, and its key is stored nowhere. *)
Theorem traverse_visit_never_returns (g : Graph) (start s : Z) :
  graph_ok g = true ->
  Graph_GetVertexByKey g start = Ok (Some s) ->
  result (dfs_topol_visit g start) = Err InvalidAccess /\
  (exists b, 0 <= b < len g /\
     color_at (graph_left (dfs_topol_visit g start)) b = Some BLACK) /\
  (forall fuel g1 v t listado q,
     exists e, result (dfs_topol_traverse fuel g1 v t listado q) = Err e).
Proof.
  intros Hok Hk.
  destruct (dfs_topol_visit_stops g start s Hok Hk)
    as (g1 & g' & b & _ & _ & _ & -> & _ & _ & Hb & Hc & _).
  split; [reflexivity |]. split; [now exists b |].
  intros fuel g2 v t listado q. apply dfs_topol_traverse_not_Ok.
Qed.

Lemma traverse_visit_never_returns_witness :
  graph_ok grafo = true /\
  Graph_GetVertexByKey grafo 100 = Ok (Some 0) /\
  result (dfs_topol_visit grafo 100) = Err InvalidAccess /\
  color_at (graph_left (dfs_topol_visit grafo 100)) 8 = Some BLACK.
Proof.
  split; [reflexivity |]. split; [reflexivity |].
  split; [| vm_compute; reflexivity].
  exact (proj1 (traverse_visit_never_returns grafo 100 0 eq_refl eq_refl)).
Defined.

(** C4: [dfs_topol] never completes, on any graph and for any start key.
    On a well-formed graph, from the key of a vertex, it stops at the
    invalid access of the visit; in the vertex array it leaves, the start
    vertex is not white and exactly one populated vertex is black, the
    first to finish, so that every other vertex that was reached is still
    gray. *)
Theorem traverse_never_completes (g : Graph) (start s : Z) :
  graph_ok g = true ->
  Graph_GetVertexByKey g start = Ok (Some s) ->
  result (dfs_topol g start) = Err InvalidAccess /\
  is_white (graph_left (dfs_topol g start)) s = false /\
  (exists b,
     0 <= b < len g /\
     forall i, 0 <= i < len g ->
       (color_at (graph_left (dfs_topol g start)) i = Some BLACK <-> i = b)) /\
  forall (g0 : Graph) (key : Z), exists e, result (dfs_topol g0 key) = Err e.
Proof.
  intros Hok Hk. split; [| split; [| split]]; [| | | intros; apply dfs_topol_not_Ok].
  all: destruct (dfs_topol_visit_stops g start s Hok Hk)
    as (g1 & g' & b & _ & _ & Hin & _ & -> & _ & Hb & Hc & N & Hw);
    cbn [result graph_left stops].
  - reflexivity.
  - exact Hw.
  - exists b. split; [exact Hb |]. intros i Hi. split.
    + intros H. destruct (N i H) as [H1 | H1]; [| congruence].
      exfalso. destruct (Hin i Hi) as (x & _ & Hx).
      rewrite (color_at_load _ _ _ Hx) in H1.
      destruct (i =? s); discriminate H1.
    + now intros ->.
Qed.

Lemma traverse_never_completes_witness :
  graph_ok grafo = true /\
  Graph_GetVertexByKey grafo 100 = Ok (Some 0) /\
  result (dfs_topol grafo 100) = Err InvalidAccess /\
  color_at (graph_left (dfs_topol grafo 100)) 0 = Some GRAY /\
  color_at (graph_left (dfs_topol grafo 100)) 7 = Some WHITE /\
  color_at (graph_left (dfs_topol grafo 100)) 8 = Some BLACK.
Proof.
  split; [reflexivity |]. split; [reflexivity |].
  split; [exact (proj1 (traverse_never_completes grafo 100 0 eq_refl eq_refl)) |].
  repeat split; vm_compute; reflexivity.
Defined.

(** C7: [dfs_topol] first runs the reset loop, after which every populated
    vertex is [WHITE] with predecessor -1 and both times 0, with its key,
    its list and its distance as before, and no other slot is touched.  The
    visit writes no finish time: in the vertex array that [dfs_topol]
    leaves, every populated vertex has finish time 0.  But the run stops in
    the visit, at [Queue_Enqueue( &listado, ... )], and does not
    complete. *)
Theorem traverse_resets_then_stops (g : Graph) (start s : Z) :
  graph_ok g = true ->
  Graph_GetVertexByKey g start = Ok (Some s) ->
  (exists g0,
     dfs_topol_reset (Z.to_nat (Graph_GetLen g)) 0 g = returns g0 tt /\
     (forall i, 0 <= i < len g ->
        exists x y,
          load g i = Ok x /\ load g0 i = Ok y /\
          color y = WHITE /\ predecessor y = -1 /\
          discovery_time y = 0 /\ finish_time y = 0 /\
          data y = data x /\ neighbors y = neighbors x /\
          distance y = distance x) /\
     (forall i, ~ 0 <= i < len g -> load g0 i = load g i)) /\
  (forall i, 0 <= i < len g ->
     exists y, load (graph_left (dfs_topol g start)) i = Ok y /\
               finish_time y = 0) /\
  result (dfs_topol g start) = Err InvalidAccess.
Proof.
  intros Hok Hk. split; [| split].
  - destruct (dfs_topol_init_runs g start s (graph_ok_storage g Hok) Hk)
      as (g0 & x0 & Hreset & _ & Hin & Hout & _).
    exists g0. split; [exact Hreset |]. split; [| exact Hout].
    intros i Hi. destruct (Hin i Hi) as (x & Hx & Hy).
    exists x, (reset_vertex x). split; [exact Hx |]. split; [exact Hy |].
    simpl. repeat split.
  - intros i Hi.
    destruct (dfs_topol_visit_stops g start s Hok Hk)
      as (g1 & g' & b & _ & _ & Hin & _ & -> & (E & _ & F) & _).
    cbn [graph_left stops].
    destruct (Hin i Hi) as (x & _ & Hx1).
    destruct E as (_ & _ & _ & A & _). destruct (A i _ Hx1) as (y & Hy & _).
    exists y. split; [exact Hy |].
    destruct (F i _ y Hx1 Hy) as [-> _]. now destruct (i =? s).
  - now apply dfs_topol_stops.
Qed.

Lemma traverse_resets_then_stops_witness :
  graph_ok grafo = true /\
  Graph_GetVertexByKey grafo 100 = Ok (Some 0) /\
  result (dfs_topol grafo 100) = Err InvalidAccess /\
  (forall i, 0 <= i < len grafo ->
     exists y, load (graph_left (dfs_topol grafo 100)) i = Ok y /\
               finish_time y = 0) /\
  map discovery_time (vertices (graph_left (dfs_topol grafo 100)))
  = [1; 0; 0; 2; 0; 3; 4; 0; 6].
Proof.
  split; [reflexivity |]. split; [reflexivity |].
  destruct (traverse_resets_then_stops grafo 100 0 eq_refl eq_refl)
    as (_ & Hft & Hrun).
  split; [exact Hrun |]. split; [exact Hft |]. vm_compute. reflexivity.
Defined.

(** C8, as amended: the queue [dfs_topol] creates is empty and has the
    capacity [MAX_VERTICES], 9, whatever the graph, so that the capacity is
    at least the number of vertices exactly for the graphs of at most 9
    vertices; on a graph with the storage [Graph_New] gives it, it is
    created whenever the start key is the key of a vertex. *)
Theorem traverse_queue_capacity (g : Graph) (start : Z) :
  (forall q, result (dfs_topol_init g start) = Ok q ->
     q_capacity q = MAX_VERTICES /\ Queue_Len q = 0 /\
     (len g <= q_capacity q <-> len g <= 9)) /\
  (forall s, storage_ok g = true ->
     Graph_GetVertexByKey g start = Ok (Some s) ->
     exists q, result (dfs_topol_init g start) = Ok q).
Proof.
  split.
  - intros q Hq. apply dfs_topol_init_Ok in Hq. subst q.
    split; [reflexivity |]. split; reflexivity.
  - intros s Hs Hk.
    destruct (dfs_topol_init_runs g start s Hs Hk) as (g0 & x & _ & _ & _ & _ & _ & ->).
    now exists (Queue_New MAX_VERTICES).
Qed.

Lemma traverse_queue_capacity_witness :
  storage_ok grafo = true /\
  Graph_GetVertexByKey grafo 100 = Ok (Some 0) /\
  exists q,
    result (dfs_topol_init grafo 100) = Ok q /\
    q_capacity q = MAX_VERTICES /\ Queue_Len q = 0 /\
    len grafo <= q_capacity q.
Proof.
  split; [reflexivity |]. split; [reflexivity |].
  destruct (traverse_queue_capacity grafo 100) as [Hcap Hruns].
  destruct (Hruns 0 eq_refl eq_refl) as [q Hq].
  destruct (Hcap q Hq) as (Hc & Hl & Hiff).
  exists q. split; [exact Hq |]. split; [exact Hc |]. split; [exact Hl |].
  apply Hiff. apply Z.le_refl.
Defined.

(** C8, as stated, fails on a chain of ten vertices: the graph is
    well-formed, and the queue that [dfs_topol] creates for it has capacity
    9, below the 10 vertices of the graph. *)
Lemma traverse_queue_too_small :
  graph_ok chain10 = true /\
  Graph_GetVertexByKey chain10 1 = Ok (Some 0) /\
  exists q,
    result (dfs_topol_init chain10 1) = Ok q /\
    q_capacity q < len chain10.
Proof.
  split; [reflexivity |]. split; [reflexivity |].
  destruct (dfs_topol_init_runs chain10 1 0 eq_refl eq_refl)
    as (g0 & x & _ & _ & _ & _ & _ & Hinit).
  exists (Queue_New MAX_VERTICES). rewrite Hinit. split; reflexivity.
Qed.

(** * Further properties of the graph operations *)

(** ** [find] *)

(** [find] over the first [size] slots of an array that has them returns the
    index of the first slot that holds the key, and -1 exactly when none
    does. *)
Theorem find_first_match (vs : list Vertex) (size key : Z) :
  size <= Z.of_nat (length vs) ->
  exists r,
    find vs size key = Ok r /\
    ((r = -1 /\
      forall j x, 0 <= j < size -> aload vs j = Ok x -> data x <> key)
     \/
     (0 <= r < size /\
      (exists x, aload vs r = Ok x /\ data x = key) /\
      forall j x, 0 <= j < r -> aload vs j = Ok x -> data x <> key)).
Proof.
  intros Hsize. unfold find.
  destruct (find_loop_total (Z.to_nat size) vs key 0) as [r Hr]; [lia | lia |].
  exists r. split; [exact Hr |].
  apply find_loop_spec in Hr; [| lia].
  destruct Hr as [[-> Hall] | (Hr & Hx & Hall)].
  - left. split; [reflexivity |]. intros j x Hj. apply Hall. lia.
  - right. split; [lia |]. split; [exact Hx |]. intros j x Hj. apply Hall. lia.
Qed.

Lemma find_first_match_witness :
  3 <= Z.of_nat (length (vertices grafo)) /\
  exists r, find (vertices grafo) 3 300 = Ok r /\ r = 2.
Proof.
  assert (H : 3 <= Z.of_nat (length (vertices grafo))) by (vm_compute; discriminate).
  split; [exact H |].
  destruct (find_first_match (vertices grafo) 3 300 H) as (r & Hr & _).
  exists r. split; [exact Hr |].
  vm_compute in Hr. injection Hr as <-. reflexivity.
Defined.

(** ** [Graph_AddVertex], [Graph_GetDataByIndex], [Graph_GetVertexByKey] *)

Lemma storage_ok_intro (g : Graph) :
  Z.of_nat (length (vertices g)) = size g -> 0 <= len g <= size g ->
  storage_ok g = true.
Proof.
  intros H1 H2. unfold storage_ok. rewrite !andb_true_iff.
  repeat split; [apply Z.eqb_eq | apply Z.leb_le | apply Z.leb_le]; lia.
Qed.

Lemma Graph_GetDataByIndex_Ok (g : Graph) (i k : Z) :
  Graph_GetDataByIndex g i = Ok k <->
  0 <= i < len g /\ exists x, load g i = Ok x /\ data x = k.
Proof.
  unfold Graph_GetDataByIndex. split.
  - intros H. inv_run H. apply assert_Ok in Ha.
    apply andb_true_iff in Ha as [H1 H2]. apply Z.leb_le in H1. apply Z.ltb_lt in H2.
    inv_run H. injection H as <-. split; [lia | now exists a0].
  - intros (Hi & x & Hx & <-).
    assert (((0 <=? i) && (i <? len g)) = true) as ->
      by (apply andb_true_iff; split; [apply Z.leb_le | apply Z.ltb_lt]; lia).
    cbn [assert bind]. rewrite Hx. reflexivity.
Qed.

(** On a graph with room left, [Graph_AddVertex] puts the key in the slot of
    index [len] and counts it: the key is then what [Graph_GetDataByIndex]
    returns for that index, [Graph_GetVertexByKey] finds the key at that
    index or at a lower one that already held it, the new vertex has no
    adjacency entries and every other slot is as before.  On a full graph
    the assertion of [Graph_AddVertex] fails. *)
Theorem Graph_AddVertex_round_trip (g : Graph) (d : Z) :
  storage_ok g = true ->
  (len g < size g ->
   exists g',
     Graph_AddVertex g d = Ok g' /\
     storage_ok g' = true /\
     len g' = len g + 1 /\ size g' = size g /\ type g' = type g /\
     Graph_GetDataByIndex g' (len g) = Ok d /\
     adjacency g' (len g) = [] /\
     (forall i, i <> len g -> load g' i = load g i) /\
     exists i, Graph_GetVertexByKey g' d = Ok (Some i) /\ 0 <= i <= len g /\
               Graph_GetDataByIndex g' i = Ok d) /\
  (size g <= len g -> Graph_AddVertex g d = Err AssertionFailed).
Proof.
  intros Hs. pose proof (storage_ok_spec g Hs) as [Hlen Hrange]. split.
  - intros Hroom. unfold Graph_AddVertex.
    assert ((len g <? size g) = true) as -> by (apply Z.ltb_lt; lia).
    cbn [assert bind].
    destruct (aload_in_range (vertices g) (len g) ltac:(lia)) as [x Hx].
    unfold load at 1. rewrite Hx. cbn [bind].
    set (y := {| data := d; neighbors := None; distance := distance x;
                 predecessor := predecessor x; color := color x;
                 discovery_time := discovery_time x;
                 finish_time := finish_time x |}).
    set (g' := {| vertices := vertices (store g (len g) y);
                  size := size (store g (len g) y);
                  len := len (store g (len g) y) + 1;
                  type := type (store g (len g) y) |}).
    assert (Hload : forall i, load g' i = load (store g (len g) y) i) by reflexivity.
    assert (Hy : load g' (len g) = Ok y)
      by (rewrite Hload; eapply load_store_eq; exact Hx).
    assert (Hst : storage_ok g' = true).
    { apply storage_ok_intro; cbn [g' vertices size len store].
      - rewrite upd_length. lia.
      - lia. }
    assert (Hget : Graph_GetDataByIndex g' (len g) = Ok d).
    { apply Graph_GetDataByIndex_Ok. split; [cbn [g' len store]; lia |].
      exists y. split; [exact Hy | reflexivity]. }
    exists g'. split; [reflexivity |]. split; [exact Hst |].
    split; [reflexivity |]. split; [reflexivity |]. split; [reflexivity |].
    split; [exact Hget |]. split; [unfold adjacency; rewrite Hy; reflexivity |].
    split.
    + intros i Hi. rewrite Hload. apply load_store_ne; [lia | congruence].
    + pose proof (storage_ok_spec g' Hst) as [Hlen' Hrange'].
      destruct (GetVertexByKey_total g' d ltac:(lia)) as [[i|] Hi].
      * pose proof (GetVertexByKey_Some _ _ _ Hi) as (Hr & (z & Hz & Hzd) & Hlow).
        exists i. split; [exact Hi |]. cbn [g' len store] in Hr.
        split.
        -- destruct (Z.le_gt_cases i (len g)); [lia |].
           exfalso. apply (Hlow (len g) y); [lia | exact Hy | reflexivity].
        -- apply Graph_GetDataByIndex_Ok. split; [cbn [g' len store]; lia |].
           now exists z.
      * exfalso. apply (GetVertexByKey_None _ _ Hi (len g) y);
          [cbn [g' len store]; lia | exact Hy | reflexivity].
  - intros Hfull. unfold Graph_AddVertex.
    assert ((len g <? size g) = false) as -> by (apply Z.ltb_ge; lia).
    reflexivity.
Qed.

Lemma Graph_AddVertex_round_trip_witness :
  storage_ok half_full = true /\
  len half_full < size half_full /\
  exists g',
    Graph_AddVertex half_full 7 = Ok g' /\
    Graph_GetDataByIndex g' 1 = Ok 7 /\
    Graph_AddVertex g' 8 = Err AssertionFailed.
Proof.
  split; [reflexivity |]. split; [reflexivity |].
  destruct (Graph_AddVertex_round_trip half_full 7 eq_refl) as [Hroom _].
  destruct (Hroom eq_refl) as (g' & Hrun & Hst & Hl & Hsz & _ & Hget & _).
  exists g'. split; [exact Hrun |]. split; [exact Hget |].
  destruct (Graph_AddVertex_round_trip g' 8 Hst) as [_ Hfull].
  apply Hfull. rewrite Hl, Hsz. vm_compute. discriminate.
Defined.

(** Keys and indices agree: the vertex that [Graph_GetVertexByKey] returns
    for a key has that key as the data [Graph_GetDataByIndex] returns; the
    key read at a populated index is found again by key, at that index or at
    a lower one; and outside the populated range [Graph_GetDataByIndex]
    fails its assertion. *)
Theorem key_index_round_trip (g : Graph) :
  storage_ok g = true ->
  (forall k i, Graph_GetVertexByKey g k = Ok (Some i) ->
               Graph_GetDataByIndex g i = Ok k) /\
  (forall i k, Graph_GetDataByIndex g i = Ok k ->
               exists j, Graph_GetVertexByKey g k = Ok (Some j) /\ 0 <= j <= i) /\
  (forall i, ~ 0 <= i < len g -> Graph_GetDataByIndex g i = Err AssertionFailed) /\
  (forall i, 0 <= i < len g -> exists k, Graph_GetDataByIndex g i = Ok k).
Proof.
  intros Hs. pose proof (storage_ok_spec g Hs) as [Hlen Hrange].
  split; [| split; [| split]].
  - intros k i Hk. apply Graph_GetDataByIndex_Ok.
    destruct (GetVertexByKey_Some _ _ _ Hk) as (Hi & Hx & _). auto.
  - intros i k Hget. apply Graph_GetDataByIndex_Ok in Hget as (Hi & x & Hx & Hd).
    destruct (GetVertexByKey_total g k ltac:(lia)) as [[j|] Hj].
    + exists j. split; [exact Hj |].
      destruct (GetVertexByKey_Some _ _ _ Hj) as (Hjr & _ & Hlow).
      split; [lia |]. destruct (Z.le_gt_cases j i); [assumption |].
      exfalso. apply (Hlow i x); auto. lia.
    + exfalso. exact (GetVertexByKey_None _ _ Hj i x Hi Hx Hd).
  - intros i Hi. unfold Graph_GetDataByIndex.
    assert (((0 <=? i) && (i <? len g)) = false) as ->; [| reflexivity].
    apply andb_false_iff.
    destruct (Z.lt_ge_cases i 0); [left; apply Z.leb_gt; lia |].
    right. apply Z.ltb_ge. lia.
  - intros i Hi. destruct (aload_in_range (vertices g) i ltac:(lia)) as [x Hx].
    exists (data x). apply Graph_GetDataByIndex_Ok. split; [exact Hi |]. now exists x.
Qed.

Lemma key_index_round_trip_witness :
  storage_ok grafo = true /\
  Graph_GetDataByIndex grafo 3 = Ok 400 /\
  Graph_GetDataByIndex grafo 9 = Err AssertionFailed.
Proof.
  split; [reflexivity |].
  destruct (key_index_round_trip grafo eq_refl) as (Hkey & _ & Hout & _).
  split; [apply Hkey; reflexivity |].
  apply Hout. vm_compute. intros [_ H]. discriminate.
Defined.

(** ** [Graph_AddEdge] *)

Lemma inserts_fields (ws : list Z) :
  forall x,
  data (inserts x ws) = data x /\
  color (inserts x ws) = color x /\
  predecessor (inserts x ws) = predecessor x /\
  discovery_time (inserts x ws) = discovery_time x /\
  finish_time (inserts x ws) = finish_time x.
Proof.
  induction ws as [|w ws IH]; intros x; simpl; [auto 6 |].
  destruct (IH (insert x w 0%float)) as (A1 & A2 & A3 & A4 & A5).
  destruct (insert_fields x w 0%float) as (B1 & B2 & B3 & B4 & B5).
  unfold inserts in *. repeat split; congruence.
Qed.

Lemma insert_appends (x : Vertex) (w : Z) (f : float) :
  exists tail,
    entries (insert x w f) = entries x ++ tail /\
    forall d, In d tail -> index d = w.
Proof.
  destruct (find_neighbor x w) eqn:E.
  - exists []. rewrite insert_present by assumption.
    split; [now rewrite app_nil_r | simpl; tauto].
  - exists [{| index := w; weight := f |}].
    split; [now apply insert_absent |]. intros d [<- | []]. reflexivity.
Qed.

Lemma inserts_appends (ws : list Z) :
  forall x,
  exists tail,
    entries (inserts x ws) = entries x ++ tail /\
    forall d, In d tail -> In (index d) ws.
Proof.
  induction ws as [|w ws IH]; intros x; simpl.
  - exists []. split; [now rewrite app_nil_r | simpl; tauto].
  - destruct (insert_appends x w 0%float) as (t1 & E1 & H1).
    destruct (IH (insert x w 0%float)) as (t2 & E2 & H2).
    exists (t1 ++ t2). unfold inserts in *. split.
    + rewrite E2, E1. now rewrite app_assoc.
    + intros d Hd. apply in_app_or in Hd as [Hd | Hd]; [left | right]; auto.
      symmetry. auto.
Qed.

Lemma inserts_In (ws : list Z) :
  forall x w, In w ws -> In w (neighbor_indices (inserts x ws)).
Proof.
  induction ws as [|a ws IH]; intros x w Hw; simpl in *; [contradiction |].
  destruct Hw as [-> | Hw]; [| now apply IH].
  destruct (inserts_appends ws (insert x w 0%float)) as (tail & E & _).
  unfold neighbor_indices, inserts in *. rewrite E, map_app.
  apply in_or_app. left.
  apply (proj1 (find_neighbor_In (insert x w 0%float) w)).
  apply find_neighbor_insert.
Qed.

Lemma inserts_NoDup (ws : list Z) :
  forall x, NoDup (neighbor_indices x) -> NoDup (neighbor_indices (inserts x ws)).
Proof.
  induction ws as [|w ws IH]; intros x Hx; simpl; [assumption |].
  apply IH. rewrite insert_indices.
  destruct (find_neighbor x w) eqn:E; [assumption |].
  apply NoDup_app; [assumption | constructor; [simpl; tauto | constructor] |].
  intros a Ha [<- | []].
  apply find_neighbor_In in Ha. congruence.
Qed.

Lemma find_found_loads (vs : list Vertex) (size key r : Z) :
  find vs size key = Ok r -> r <> -1 ->
  0 <= r < size /\ exists x, aload vs r = Ok x /\ data x = key.
Proof.
  intros H Hr. apply find_loop_spec in H; [| lia].
  destruct H as [[-> _] | (H1 & H2 & _)]; [congruence |].
  split; [lia | exact H2].
Qed.

(** What a successful [Graph_AddEdge] does to every slot. *)
Lemma Graph_AddEdge_slots (g g' : Graph) (a b : Z) :
  Graph_AddEdge g a b = Ok (g', true) ->
  exists ia ib,
    find (vertices g) (size g) a = Ok ia /\
    find (vertices g) (size g) b = Ok ib /\
    0 <= ia < size g /\ 0 <= ib < size g /\
    (exists x, load g ia = Ok x /\ data x = a) /\
    (exists y, load g ib = Ok y /\ data y = b) /\
    0 < len g /\ len g' = len g /\ size g' = size g /\ type g' = type g /\
    forall i,
      load g' i =
      match load g i with
      | Ok x => Ok (inserts x (edge_inserts (type g) ia ib i))
      | Err e => Err e
      end.
Proof.
  unfold Graph_AddEdge. intros H. inv_run H. apply assert_Ok, Z.ltb_lt in Ha.
  inv_run H. rename a0 into u, a1 into ia, Ha0 into Hia.
  inv_run H. rename a0 into ib, Ha0 into Hib.
  destruct ((ia =? -1) || (ib =? -1)) eqn:E; [discriminate |].
  apply orb_false_iff in E as [E1 E2]. apply Z.eqb_neq in E1, E2.
  destruct (find_found_loads _ _ _ _ Hia E1) as (Ra & x & Hx & Hxa).
  destruct (find_found_loads _ _ _ _ Hib E2) as (Rb & y & Hy & Hyb).
  inv_run H. rename a0 into g1, Ha0 into H1.
  apply modify_Ok in H1 as (x' & Hx' & -> & _).
  assert (x' = x) by (unfold load in Hx'; congruence); subst x'.
  inv_run H. rename a0 into g2, Ha0 into H2. injection H as <-.
  assert (Hfinal : size g2 = size g /\ len g2 = len g /\ type g2 = type g /\
    forall i, load g2 i =
      match load g i with
      | Ok z => Ok (inserts z (edge_inserts (type g) ia ib i))
      | Err e => Err e
      end).
  { cbn [store type] in H2. unfold edge_inserts.
    destruct (type g) eqn:Ety.
    - apply modify_Ok in H2 as (y' & Hy' & -> & _).
      split; [reflexivity |]. split; [reflexivity |]. split; [exact Ety |].
      intros i. destruct (Z.eqb_spec i ib) as [-> | Hnb].
      + rewrite (load_store_eq _ _ _ _ Hy').
        destruct (Z.eqb_spec ib ia) as [-> | Hna].
        * rewrite (load_store_eq _ _ _ _ Hx) in Hy'. injection Hy' as <-.
          unfold load at 1. rewrite Hx. reflexivity.
        * rewrite load_store_ne in Hy' by (lia || congruence).
          unfold load in Hy' |- *. rewrite Hy in *. injection Hy' as <-. reflexivity.
      + rewrite load_store_ne by (lia || congruence).
        destruct (Z.eqb_spec i ia) as [-> | Hna].
        * rewrite (load_store_eq _ _ _ _ Hx). unfold load. rewrite Hx. reflexivity.
        * rewrite load_store_ne by (lia || congruence).
          destruct (load g i); reflexivity.
    - injection H2 as <-.
      split; [reflexivity |]. split; [reflexivity |]. split; [exact Ety |].
      intros i. destruct (Z.eqb_spec i ia) as [-> | Hna].
      + rewrite (load_store_eq _ _ _ _ Hx). unfold load. rewrite Hx. reflexivity.
      + rewrite load_store_ne by (lia || congruence).
        destruct (load g i); reflexivity. }
  destruct Hfinal as (F1 & F2 & F3 & F4).
  exists ia, ib.
  split; [exact Hia |]. split; [exact Hib |].
  split; [exact Ra |]. split; [exact Rb |].
  split; [now exists x |]. split; [now exists y |].
  split; [exact Ha |]. split; [exact F2 |]. split; [exact F1 |].
  split; [exact F3 | exact F4].
Qed.

Lemma find_slot_key (g : Graph) (k : Z) :
  storage_ok g = true ->
  exists r, find (vertices g) (size g) k = Ok r /\
            (r = -1 <-> ~ slot_key g k) /\
            (r <> -1 -> 0 <= r < size g /\ exists x, load g r = Ok x /\ data x = k).
Proof.
  intros Hs. apply storage_ok_spec in Hs as [Hlen Hrange]. unfold find.
  destruct (find_loop_total (Z.to_nat (size g)) (vertices g) k 0) as [r Hr];
    [lia | lia |].
  exists r. split; [exact Hr |].
  apply find_loop_spec in Hr; [| lia].
  rewrite Z2Nat.id in Hr by lia. split.
  - destruct Hr as [[-> Hall] | (Hb & (x & Hx & Hd) & _)].
    + split; [| reflexivity]. intros _ (i & x & Hi & Hx & Hd).
      apply (Hall i x); auto; lia.
    + split; [lia |]. intros Hn. exfalso. apply Hn. exists r, x. split; [lia | auto].
  - intros Hne. destruct Hr as [[-> _] | (Hb & Hx & _)]; [congruence |].
    split; [lia | exact Hx].
Qed.

Lemma Graph_AddEdge_unknown (g : Graph) (a b : Z) :
  storage_ok g = true -> 0 < len g ->
  ~ slot_key g a \/ ~ slot_key g b ->
  Graph_AddEdge g a b = Ok (g, false).
Proof.
  intros Hs Hpos Hno.
  destruct (find_slot_key g a Hs) as (ia & Hia & Na & _).
  destruct (find_slot_key g b Hs) as (ib & Hib & Nb & _).
  unfold Graph_AddEdge.
  assert ((0 <? len g) = true) as -> by (apply Z.ltb_lt; lia).
  cbn [assert bind]. rewrite Hia, Hib. cbn [bind].
  assert (((ia =? -1) || (ib =? -1)) = true) as ->; [| reflexivity].
  apply orb_true_iff.
  destruct Hno as [H | H]; [left; apply Z.eqb_eq; now apply Na
                           | right; apply Z.eqb_eq; now apply Nb].
Qed.

Lemma Graph_AddEdge_known (g : Graph) (a b : Z) :
  storage_ok g = true -> 0 < len g ->
  slot_key g a -> slot_key g b ->
  exists g', Graph_AddEdge g a b = Ok (g', true).
Proof.
  intros Hs Hpos Sa Sb.
  destruct (find_slot_key g a Hs) as (ia & Hia & Na & La).
  destruct (find_slot_key g b Hs) as (ib & Hib & Nb & Lb).
  assert (Hia' : ia <> -1) by (intros E; apply Na in E; contradiction).
  assert (Hib' : ib <> -1) by (intros E; apply Nb in E; contradiction).
  destruct (La Hia') as (_ & x & Hx & _). destruct (Lb Hib') as (_ & y & Hy & _).
  eapply Graph_AddEdge_resolved; eassumption.
Qed.

(** On a non-empty graph [Graph_AddEdge] returns true when each of the two
    keys is held by one of the [size] slots, and returns false, leaving the
    graph as it is, when one of them is held by none; so on a full graph it
    returns false for every key that is not the key of a vertex.  On an
    empty graph its assertion fails. *)
Theorem Graph_AddEdge_returns (g : Graph) (a b : Z) :
  storage_ok g = true ->
  (0 < len g ->
   (slot_key g a -> slot_key g b -> exists g', Graph_AddEdge g a b = Ok (g', true)) /\
   (~ slot_key g a \/ ~ slot_key g b -> Graph_AddEdge g a b = Ok (g, false)) /\
   (len g = size g -> ~ populated_key g a \/ ~ populated_key g b ->
    Graph_AddEdge g a b = Ok (g, false))) /\
  (len g <= 0 -> Graph_AddEdge g a b = Err AssertionFailed).
Proof.
  intros Hs. split.
  - intros Hpos. split; [| split].
    + now apply Graph_AddEdge_known.
    + now apply Graph_AddEdge_unknown.
    + intros Hfull Hno. apply Graph_AddEdge_unknown; auto.
      destruct Hno as [H | H]; [left | right]; intros (i & x & Hi & Hx & Hd);
        apply H; exists i, x; (split; [lia | auto]).
  - intros Hempty. unfold Graph_AddEdge.
    assert ((0 <? len g) = false) as -> by (apply Z.ltb_ge; lia).
    reflexivity.
Qed.

Lemma Graph_AddEdge_returns_witness :
  storage_ok grafo = true /\ 0 < len grafo /\
  Graph_AddEdge grafo 100 150 = Ok (grafo, false) /\
  exists g', Graph_AddEdge grafo 900 100 = Ok (g', true).
Proof.
  split; [reflexivity |]. split; [reflexivity |].
  destruct (Graph_AddEdge_returns grafo 100 150 eq_refl) as [H1 _].
  destruct (H1 eq_refl) as (_ & _ & Hfull).
  destruct (Graph_AddEdge_returns grafo 900 100 eq_refl) as [H2 _].
  destruct (H2 eq_refl) as (Htrue & _).
  split.
  - apply Hfull; [reflexivity |]. right. intros (i & x & Hi & Hx & Hd).
    change (len grafo) with 9 in Hi.
    assert (Hc : i = 0 \/ i = 1 \/ i = 2 \/ i = 3 \/ i = 4 \/ i = 5 \/ i = 6 \/
                 i = 7 \/ i = 8) by lia.
    repeat (destruct Hc as [-> | Hc];
            [vm_compute in Hx; injection Hx as <-; discriminate |]).
    subst i. vm_compute in Hx. injection Hx as <-. discriminate.
  - apply Htrue.
    + exists 8, {| data := 900; neighbors := None; distance := 0; predecessor := 0;
                   color := WHITE; discovery_time := 0; finish_time := 0 |}.
      split; [vm_compute; split; congruence || reflexivity |]. split; reflexivity.
    + destruct (load grafo 0) as [x|e] eqn:Hx; [| vm_compute in Hx; discriminate].
      exists 0, x. split; [vm_compute; split; congruence || reflexivity |].
      split; [exact Hx |]. vm_compute in Hx. injection Hx as <-. reflexivity.
Defined.

(** A successful [Graph_AddEdge] leaves the index of the second key in the
    list of the vertex of the first key; in an undirected graph it also
    leaves the index of the first in the list of the second, in a directed
    graph the vertex of the second key, when it is another vertex, is
    untouched.  No other vertex is touched. *)
Theorem Graph_AddEdge_symmetry (g g' : Graph) (a b : Z) :
  Graph_AddEdge g a b = Ok (g', true) ->
  exists ia ib,
    find (vertices g) (size g) a = Ok ia /\
    find (vertices g) (size g) b = Ok ib /\
    key_at g ia = a /\ key_at g ib = b /\
    In ib (indices_at g' ia) /\
    (type g = eGraphType_UNDIRECTED -> In ia (indices_at g' ib)) /\
    (type g = eGraphType_DIRECTED -> ia <> ib -> load g' ib = load g ib) /\
    (forall j, j <> ia -> j <> ib -> load g' j = load g j).
Proof.
  intros H.
  destruct (Graph_AddEdge_slots _ _ _ _ H)
    as (ia & ib & Hia & Hib & Ra & Rb & (x & Hx & Hxa) & (y & Hy & Hyb) & _ & _ & _ & _ & Hall).
  exists ia, ib. split; [exact Hia |]. split; [exact Hib |].
  split; [unfold key_at; now rewrite Hx |]. split; [unfold key_at; now rewrite Hy |].
  split; [| split; [| split]].
  - unfold indices_at, adjacency. rewrite Hall, Hx.
    apply inserts_In. unfold edge_inserts. rewrite Z.eqb_refl. now left.
  - intros Hty. unfold indices_at, adjacency. rewrite Hall, Hy.
    apply inserts_In. unfold edge_inserts. rewrite Hty, Z.eqb_refl.
    apply in_or_app. right. now left.
  - intros Hty Hne. rewrite Hall, Hy. unfold edge_inserts. rewrite Hty.
    destruct (Z.eqb_spec ib ia); [congruence | reflexivity].
  - intros j Ha Hb. rewrite Hall. unfold edge_inserts.
    destruct (Z.eqb_spec j ia); [congruence |].
    destruct (Z.eqb_spec j ib); [congruence |].
    destruct (type g), (load g j); reflexivity.
Qed.

Lemma Graph_AddEdge_symmetry_witness :
  exists g',
    Graph_AddEdge grafo 900 100 = Ok (g', true) /\
    In 0 (indices_at g' 8) /\ load g' 0 = load grafo 0.
Proof.
  assert (H : Graph_AddEdge grafo 900 100
              = Ok (fst (match Graph_AddEdge grafo 900 100 with
                         | Ok r => r | Err _ => (grafo, false) end), true))
    by reflexivity.
  eexists. split; [exact H |].
  destruct (Graph_AddEdge_symmetry _ _ _ _ H)
    as (ia & ib & Hia & Hib & _ & _ & Hin & _ & Hdir & _).
  vm_compute in Hia. injection Hia as <-.
  vm_compute in Hib. injection Hib as <-.
  split; [exact Hin |]. apply Hdir; [reflexivity | discriminate].
Defined.

Lemma find_loop_keys_kept (g g' : Graph) (key : Z) (n : nat) :
  keys_kept g g' ->
  forall i, find_loop n i (vertices g') key = find_loop n i (vertices g) key.
Proof.
  intros (_ & _ & K). induction n as [|n IH]; intros i; simpl; [reflexivity |].
  specialize (K i). unfold load in K.
  destruct (aload (vertices g) i) as [x|e] eqn:Hx,
           (aload (vertices g') i) as [y|e'] eqn:Hy; try contradiction; simpl.
  - rewrite K, IH. reflexivity.
  - apply aload_Err in Hx, Hy. congruence.
Qed.

Lemma lookups_keys_kept (g g' : Graph) (key : Z) :
  keys_kept g g' ->
  find (vertices g') (size g') key = find (vertices g) (size g) key /\
  Graph_GetVertexByKey g' key = Graph_GetVertexByKey g key.
Proof.
  intros K. pose proof K as (L & S & _). split.
  - unfold find. rewrite S. now apply find_loop_keys_kept.
  - rewrite !GetVertexByKey_find. unfold find. rewrite L.
    now rewrite (find_loop_keys_kept g g' key _ K).
Qed.

Lemma Graph_AddEdge_keys_kept (g g' : Graph) (a b : Z) (r : bool) :
  Graph_AddEdge g a b = Ok (g', r) -> keys_kept g g'.
Proof.
  intros H. destruct r.
  - destruct (Graph_AddEdge_slots _ _ _ _ H)
      as (ia & ib & _ & _ & _ & _ & _ & _ & _ & L & S & _ & Hall).
    split; [exact L |]. split; [exact S |]. intros i. rewrite Hall.
    destruct (load g i) as [x|e]; [| exact I].
    apply inserts_fields.
  - apply Graph_AddEdge_false_unchanged in H. subst g'.
    split; [reflexivity |]. split; [reflexivity |].
    intros i. destruct (load g i); auto.
Qed.

(** [Graph_AddEdge] only ever appends: whatever it returns, the graph keeps
    its size, length and type, every vertex keeps its key, its traversal
    fields and its adjacency entries, to which new entries may be appended
    at the back, and every key is found where it was found before. *)
Theorem Graph_AddEdge_only_appends (g g' : Graph) (a b : Z) (r : bool) :
  Graph_AddEdge g a b = Ok (g', r) ->
  size g' = size g /\ len g' = len g /\ type g' = type g /\
  (forall i x, load g i = Ok x ->
     exists y tail,
       load g' i = Ok y /\ entries y = entries x ++ tail /\
       data y = data x /\ color y = color x /\ predecessor y = predecessor x /\
       discovery_time y = discovery_time x /\ finish_time y = finish_time x) /\
  (forall k, Graph_GetVertexByKey g' k = Graph_GetVertexByKey g k).
Proof.
  intros H.
  assert (Hkeys : forall k, Graph_GetVertexByKey g' k = Graph_GetVertexByKey g k).
  { intros k. apply lookups_keys_kept. eapply Graph_AddEdge_keys_kept; eassumption. }
  destruct r.
  - destruct (Graph_AddEdge_slots _ _ _ _ H)
      as (ia & ib & _ & _ & _ & _ & _ & _ & _ & L & S & T & Hall).
    split; [exact S |]. split; [exact L |]. split; [exact T |].
    split; [| exact Hkeys].
    intros i x Hx. rewrite Hall, Hx.
    destruct (inserts_appends (edge_inserts (type g) ia ib i) x) as (tail & E & _).
    exists (inserts x (edge_inserts (type g) ia ib i)), tail.
    split; [reflexivity |]. split; [exact E |]. apply inserts_fields.
  - apply Graph_AddEdge_false_unchanged in H. subst g'.
    split; [reflexivity |]. split; [reflexivity |]. split; [reflexivity |].
    split; [| exact Hkeys].
    intros i x Hx. exists x, []. rewrite app_nil_r. auto 8.
Qed.

Lemma Graph_AddEdge_only_appends_witness :
  exists g',
    Graph_AddEdge grafo 400 900 = Ok (g', true) /\
    len g' = len grafo /\
    Graph_GetVertexByKey g' 900 = Graph_GetVertexByKey grafo 900.
Proof.
  assert (H : Graph_AddEdge grafo 400 900
              = Ok (fst (match Graph_AddEdge grafo 400 900 with
                         | Ok r => r | Err _ => (grafo, false) end), true))
    by reflexivity.
  eexists. split; [exact H |].
  destruct (Graph_AddEdge_only_appends _ _ _ _ _ H) as (_ & L & _ & _ & K).
  split; [exact L | exact (K 900)].
Defined.

(** Adding the same edge again changes nothing: a second [Graph_AddEdge]
    with the same keys returns what the first returned and leaves the graph
    the first produced. *)
Theorem Graph_AddEdge_idempotent (g g' : Graph) (a b : Z) (r : bool) :
  Graph_AddEdge g a b = Ok (g', r) ->
  Graph_AddEdge g' a b = Ok (g', r).
Proof.
  intros H. destruct r.
  - pose proof (Graph_AddEdge_keys_kept _ _ _ _ _ H) as K.
    destruct (Graph_AddEdge_slots _ _ _ _ H)
      as (ia & ib & Hia & Hib & Ra & Rb & (x & Hx & _) & (y & Hy & _) & Hpos & L & _ & T
          & Hall).
    destruct (lookups_keys_kept g g' a K) as [Fa _].
    destruct (lookups_keys_kept g g' b K) as [Fb _].
    unfold Graph_AddEdge. rewrite L.
    assert ((0 <? len g) = true) as -> by (apply Z.ltb_lt; lia).
    cbn [assert bind]. rewrite Fa, Fb, Hia, Hib. cbn [bind].
    assert ((ia =? -1) = false) as -> by (apply Z.eqb_neq; lia).
    assert ((ib =? -1) = false) as -> by (apply Z.eqb_neq; lia).
    cbn [orb].
    assert (Hxa : load g' ia = Ok (inserts x (edge_inserts (type g) ia ib ia)))
      by (rewrite Hall, Hx; reflexivity).
    assert (Hyb : load g' ib = Ok (inserts y (edge_inserts (type g) ia ib ib)))
      by (rewrite Hall, Hy; reflexivity).
    rewrite (modify_run _ _ _ _ Hxa). cbn [bind].
    rewrite insert_present.
    2:{ apply find_neighbor_In, inserts_In. unfold edge_inserts.
        rewrite Z.eqb_refl. now left. }
    rewrite (store_same _ _ _ Hxa). rewrite T.
    destruct (type g) eqn:Ety; [| reflexivity].
    rewrite (modify_run _ _ _ _ Hyb). cbn [bind].
    rewrite insert_present.
    2:{ apply find_neighbor_In, inserts_In. unfold edge_inserts.
        rewrite Z.eqb_refl. apply in_or_app. right. now left. }
    rewrite (store_same _ _ _ Hyb). reflexivity.
  - pose proof (Graph_AddEdge_false_unchanged _ _ _ _ H). subst g'. exact H.
Qed.

Lemma Graph_AddEdge_idempotent_witness :
  exists g',
    Graph_AddEdge grafo 900 100 = Ok (g', true) /\
    Graph_AddEdge g' 900 100 = Ok (g', true).
Proof.
  assert (H : Graph_AddEdge grafo 900 100
              = Ok (fst (match Graph_AddEdge grafo 900 100 with
                         | Ok r => r | Err _ => (grafo, false) end), true))
    by reflexivity.
  eexists. split; [exact H |].
  exact (Graph_AddEdge_idempotent _ _ _ _ _ H).
Defined.

(** ** Graphs built through the interface *)

Lemma nth_error_repeat_Some (x y : Vertex) (n i : nat) :
  nth_error (repeat x n) i = Some y -> y = x.
Proof.
  intros H. apply nth_error_In in H. now apply repeat_spec in H.
Qed.

Lemma Graph_New_inv (size : Z) (ty : eGraphType) (g : Graph) :
  Graph_New size ty = Ok g -> api_inv g /\ len g = 0.
Proof.
  unfold Graph_New. intros H. inv_run H. apply assert_Ok, Z.ltb_lt in Ha.
  injection H as <-. split; [| reflexivity]. split.
  - apply storage_ok_intro; simpl; [rewrite repeat_length; lia | lia].
  - intros i x Hx. apply aload_Ok in Hx as [_ Hx]. simpl in Hx.
    apply nth_error_repeat_Some in Hx. subst x.
    split; [constructor |]. split; [simpl; tauto | reflexivity].
Qed.

Lemma Graph_AddVertex_inv (g g' : Graph) (d : Z) :
  api_inv g -> Graph_AddVertex g d = Ok g' -> api_inv g'.
Proof.
  intros [Hs Hall] H. pose proof (storage_ok_spec g Hs) as [Hlen Hrange].
  unfold Graph_AddVertex in H. inv_run H. apply assert_Ok, Z.ltb_lt in Ha.
  inv_run H. rename a0 into x, Ha0 into Hx. injection H as <-.
  split.
  - apply storage_ok_intro; simpl; [rewrite upd_length; lia | lia].
  - intros i y Hy. cbn [size len store].
    change (load (store g (len g)
                    {| data := d; neighbors := None; distance := distance x;
                       predecessor := predecessor x; color := color x;
                       discovery_time := discovery_time x;
                       finish_time := finish_time x |}) i = Ok y) in Hy.
    destruct (Z.eq_dec (len g) i) as [<- | Hne].
    + rewrite (load_store_eq _ _ _ _ Hx) in Hy. injection Hy as <-.
      split; [constructor |]. split; [simpl; tauto | intros; lia].
    + rewrite load_store_ne in Hy by (lia || congruence).
      destruct (Hall i y Hy) as (A & B & C).
      split; [exact A |]. split; [exact B |]. intros Hi. apply C. lia.
Qed.

Lemma Graph_AddEdge_inv (g g' : Graph) (a b : Z) (r : bool) :
  api_inv g -> Graph_AddEdge g a b = Ok (g', r) -> api_inv g'.
Proof.
  intros [Hs Hall] H. destruct r.
  - pose proof (storage_ok_spec g Hs) as [Hlen Hrange].
    destruct (Graph_AddEdge_slots _ _ _ _ H)
      as (ia & ib & _ & _ & Ra & Rb & _ & _ & _ & L & S & _ & Hload).
    assert (Hlen' : Z.of_nat (length (vertices g')) = size g').
    { rewrite S, <- Hlen.
      destruct (Z.lt_trichotomy (Z.of_nat (length (vertices g')))
                                (Z.of_nat (length (vertices g)))) as [Hc | [Hc | Hc]];
        [| exact Hc |].
      - destruct (aload_in_range (vertices g) (Z.of_nat (length (vertices g')))
                    ltac:(lia)) as [x Hx].
        specialize (Hload (Z.of_nat (length (vertices g')))).
        unfold load in Hload. rewrite Hx in Hload.
        apply aload_bound in Hload. lia.
      - destruct (aload_in_range (vertices g') (Z.of_nat (length (vertices g)))
                    ltac:(lia)) as [x Hx].
        specialize (Hload (Z.of_nat (length (vertices g)))).
        unfold load in Hload. rewrite Hx in Hload.
        destruct (aload (vertices g) (Z.of_nat (length (vertices g)))) as [z|e] eqn:Hz;
          [| discriminate].
        apply aload_bound in Hz. lia. }
    split; [apply storage_ok_intro; lia |].
    intros i y Hy. rewrite Hload in Hy.
    destruct (load g i) as [x|e] eqn:Hx; [| discriminate]. injection Hy as <-.
    destruct (Hall i x Hx) as (A & B & C).
    split; [now apply inserts_NoDup |]. split.
    + intros w Hw. rewrite S. unfold neighbor_indices in Hw.
      destruct (inserts_appends (edge_inserts (type g) ia ib i) x) as (tail & E & Ht).
      rewrite E, map_app in Hw. apply in_app_or in Hw as [Hw | Hw]; [now apply B |].
      apply in_map_iff in Hw as (d & <- & Hd). specialize (Ht d Hd).
      unfold edge_inserts in Ht.
      destruct (i =? ia), (type g), (i =? ib); simpl in Ht;
        repeat (destruct Ht as [<- | Ht]; [lia |]); contradiction.
    + intros Hi. rewrite L in Hi.
      destruct (inserts_fields (edge_inserts (type g) ia ib i) x) as (-> & _). auto.
  - apply Graph_AddEdge_false_unchanged in H. subst g'. now split.
Qed.

Lemma apply_ops_inv (ops : list op) :
  forall g g', api_inv g -> apply_ops g ops = Ok g' -> api_inv g'.
Proof.
  induction ops as [|o ops IH]; intros g g' Hinv H; simpl in H.
  - now injection H as <-.
  - inv_run H. apply (IH a g'); [| exact H].
    destruct o as [d | x y]; simpl in Ha.
    + eapply Graph_AddVertex_inv; eassumption.
    + inv_run Ha. destruct a0 as [g1 r]. injection Ha as <-.
      eapply Graph_AddEdge_inv; eassumption.
Qed.

(** Every graph made by [Graph_New] and then populated by any sequence of
    [Graph_AddVertex] and [Graph_AddEdge] calls has [size] slots of which the
    first [len], at most [size], are populated; none of its adjacency lists
    repeats an index; every index in a list is the index of one of the
    [size] slots; and every unpopulated slot still has the key 0. *)
Theorem built_graph_invariant (size : Z) (ty : eGraphType) (ops : list op)
    (g0 g : Graph) :
  Graph_New size ty = Ok g0 ->
  apply_ops g0 ops = Ok g ->
  api_inv g /\ Graph_GetSize g = size /\ type g = ty.
Proof.
  intros Hnew Hops.
  destruct (Graph_New_inv _ _ _ Hnew) as [Hinv _].
  split; [eapply apply_ops_inv; eassumption |].
  assert (Hkeep : forall ops g1 g2, apply_ops g1 ops = Ok g2 ->
                  Graph_GetSize g2 = Graph_GetSize g1 /\ type g2 = type g1).
  { clear. induction ops as [|o ops IH]; intros g1 g2 H; simpl in H.
    - injection H as <-. auto.
    - inv_run H. destruct (IH _ _ H) as [-> ->].
      destruct o as [d | x y]; simpl in Ha.
      + unfold Graph_AddVertex in Ha. do 2 inv_run Ha. injection Ha as <-. auto.
      + inv_run Ha. destruct a0 as [g3 r]. injection Ha as <-.
        destruct r.
        * destruct (Graph_AddEdge_slots _ _ _ _ Ha0)
            as (ia & ib & _ & _ & _ & _ & _ & _ & _ & _ & S & T & _). auto.
        * apply Graph_AddEdge_false_unchanged in Ha0. subst. auto. }
  destruct (Hkeep _ _ _ Hops) as [-> ->].
  unfold Graph_New in Hnew. inv_run Hnew. injection Hnew as <-. auto.
Qed.

Lemma built_graph_invariant_witness :
  exists g0 g,
    Graph_New 2 eGraphType_UNDIRECTED = Ok g0 /\
    apply_ops g0 [OpAddVertex 5; OpAddEdge 5 0; OpAddEdge 0 5; OpAddVertex 6;
                  OpAddEdge 6 5] = Ok g /\
    api_inv g.
Proof.
  set (g0 := {| vertices := [zero_vertex; zero_vertex]; size := 2; len := 0;
                type := eGraphType_UNDIRECTED |}).
  set (ops := [OpAddVertex 5; OpAddEdge 5 0; OpAddEdge 0 5; OpAddVertex 6;
               OpAddEdge 6 5]).
  assert (H0 : Graph_New 2 eGraphType_UNDIRECTED = Ok g0) by reflexivity.
  assert (H1 : apply_ops g0 ops
               = Ok (match apply_ops g0 ops with Ok g => g | Err _ => g0 end))
    by reflexivity.
  exists g0. eexists. split; [exact H0 |]. split; [exact H1 |].
  exact (proj1 (built_graph_invariant 2 eGraphType_UNDIRECTED ops g0 _ H0 H1)).
Defined.

(** On a graph built through the interface, [Graph_AddEdge] rejects a
    non-zero key that is not the key of a vertex: it returns false and
    leaves the graph as it is. *)
Theorem Graph_AddEdge_rejects_unknown_nonzero (size : Z) (ty : eGraphType)
    (ops : list op) (g0 g : Graph) (a b : Z) :
  Graph_New size ty = Ok g0 ->
  apply_ops g0 ops = Ok g ->
  0 < len g ->
  (a <> 0 /\ ~ populated_key g a) \/ (b <> 0 /\ ~ populated_key g b) ->
  Graph_AddEdge g a b = Ok (g, false).
Proof.
  intros Hnew Hops Hpos Hno.
  destruct (Graph_New_inv _ _ _ Hnew) as [Hinv0 _].
  destruct (apply_ops_inv _ _ _ Hinv0 Hops) as [Hs Hall].
  apply Graph_AddEdge_unknown; auto.
  assert (Hslot : forall k, k <> 0 -> ~ populated_key g k -> ~ slot_key g k).
  { intros k Hk Hnp (i & x & Hi & Hx & Hd).
    destruct (Z.lt_ge_cases i (len g)) as [Hlt | Hge].
    - apply Hnp. exists i, x. split; [lia | auto].
    - destruct (Hall i x Hx) as (_ & _ & Hzero). rewrite Hzero in Hd by lia.
      congruence. }
  destruct Hno as [[H1 H2] | [H1 H2]]; [left | right]; auto.
Qed.

Lemma Graph_AddEdge_rejects_unknown_nonzero_witness :
  exists g0 g,
    Graph_New 2 eGraphType_DIRECTED = Ok g0 /\
    apply_ops g0 [OpAddVertex 5; OpAddEdge 5 5] = Ok g /\
    0 < len g /\
    Graph_AddEdge g 5 7 = Ok (g, false).
Proof.
  set (g0 := {| vertices := [zero_vertex; zero_vertex]; size := 2; len := 0;
                type := eGraphType_DIRECTED |}).
  set (ops := [OpAddVertex 5; OpAddEdge 5 5]).
  set (g := match apply_ops g0 ops with Ok g => g | Err _ => g0 end).
  assert (H0 : Graph_New 2 eGraphType_DIRECTED = Ok g0) by reflexivity.
  assert (H1 : apply_ops g0 ops = Ok g) by reflexivity.
  assert (Hl : len g = 1) by reflexivity.
  exists g0, g. split; [exact H0 |]. split; [exact H1 |]. split; [reflexivity |].
  apply (Graph_AddEdge_rejects_unknown_nonzero 2 eGraphType_DIRECTED ops g0 g 5 7 H0 H1).
  - reflexivity.
  - right. split; [discriminate |]. intros (i & x & Hi & Hx & Hd).
    rewrite Hl in Hi. assert (i = 0) by lia. subst i.
    vm_compute in Hx. injection Hx as <-. discriminate.
Defined.

Lemma graph_ok_intro (g : Graph) :
  storage_ok g = true ->
  (forall i x d, 0 <= i < len g -> load g i = Ok x -> In d (entries x) ->
                 0 <= index d < len g) ->
  graph_ok g = true.
Proof.
  intros Hs Hall. unfold graph_ok. rewrite Hs. simpl.
  apply forallb_forall. intros x Hx. apply forallb_forall. intros d Hd.
  apply In_nth_error in Hx as [n Hn]. rewrite nth_error_firstn in Hn.
  destruct (Nat.ltb_spec n (Z.to_nat (len g))) as [Hlt | Hge]; [| discriminate].
  assert (Hload : load g (Z.of_nat n) = Ok x)
    by (apply aload_Ok; split; [lia | now rewrite Nat2Z.id]).
  destruct (Hall (Z.of_nat n) x d ltac:(lia) Hload Hd) as [H1 H2].
  apply andb_true_iff. split; [apply Z.leb_le | apply Z.ltb_lt]; lia.
Qed.

Lemma loads_length (g g' : Graph) :
  (forall i, (exists x, load g i = Ok x) <-> (exists y, load g' i = Ok y)) ->
  length (vertices g') = length (vertices g).
Proof.
  intros H.
  destruct (Nat.lt_trichotomy (length (vertices g')) (length (vertices g)))
    as [Hc | [Hc | Hc]]; [| exact Hc |]; exfalso.
  - destruct (aload_in_range (vertices g) (Z.of_nat (length (vertices g')))
                ltac:(lia)) as [x Hx].
    destruct (proj1 (H _) (ex_intro _ x Hx)) as [y Hy].
    apply aload_bound in Hy. lia.
  - destruct (aload_in_range (vertices g') (Z.of_nat (length (vertices g)))
                ltac:(lia)) as [y Hy].
    destruct (proj2 (H _) (ex_intro _ y Hy)) as [x Hx].
    apply aload_bound in Hx. lia.
Qed.

Lemma populated_find (g : Graph) (k i : Z) :
  storage_ok g = true ->
  Graph_GetVertexByKey g k = Ok (Some i) ->
  find (vertices g) (size g) k = Ok i /\ 0 <= i < len g.
Proof.
  intros Hs Hk. split; [now apply find_populated |].
  now destruct (GetVertexByKey_Some _ _ _ Hk).
Qed.

(** An edge between the keys of two vertices keeps a well-formed graph
    well-formed: [Graph_AddEdge] returns true, the graph keeps its storage
    and its vertices, and every adjacency entry of a populated vertex of the
    new graph still names a populated vertex. *)
Theorem Graph_AddEdge_keeps_well_formed (g : Graph) (a b ia ib : Z) :
  graph_ok g = true ->
  Graph_GetVertexByKey g a = Ok (Some ia) ->
  Graph_GetVertexByKey g b = Ok (Some ib) ->
  exists g',
    Graph_AddEdge g a b = Ok (g', true) /\
    graph_ok g' = true /\
    len g' = len g /\ size g' = size g /\
    forall i x d, 0 <= i < len g' -> load g' i = Ok x -> In d (entries x) ->
                  0 <= index d < len g'.
Proof.
  intros Hok Ha Hb. pose proof (graph_ok_wf g Hok) as [W1 W2].
  pose proof (graph_ok_storage g Hok) as Hs.
  destruct (populated_find g a ia Hs Ha) as [Fa Ra].
  destruct (populated_find g b ib Hs Hb) as [Fb Rb].
  destruct (W1 ia Ra) as [x Hx]. destruct (W1 ib Rb) as [y Hy].
  destruct (Graph_AddEdge_resolved g a b ia ib x y ltac:(lia) Fa Fb Hx Hy) as [g' Hrun].
  exists g'. split; [exact Hrun |].
  destruct (Graph_AddEdge_slots _ _ _ _ Hrun)
    as (ia' & ib' & Fa' & Fb' & _ & _ & _ & _ & _ & L & Hsz & _ & Hload).
  assert (ia' = ia) by congruence. assert (ib' = ib) by congruence. subst ia' ib'.
  pose proof (storage_ok_spec g Hs) as [Hlen Hrange].
  assert (Hok' : graph_ok g' = true).
  { apply graph_ok_intro.
    - apply storage_ok_intro; [| lia].
      rewrite Hsz, <- Hlen. f_equal. apply loads_length. intros i. rewrite Hload.
      destruct (load g i) as [z|e]; split; intros [u Hu]; eauto; discriminate.
    - intros i z d Hi Hz Hd. rewrite L in *. rewrite Hload in Hz.
      destruct (load g i) as [u|e] eqn:Hu; [| discriminate]. injection Hz as <-.
      destruct (inserts_appends (edge_inserts (type g) ia ib i) u) as (tail & E & Ht).
      rewrite E in Hd. apply in_app_or in Hd as [Hd | Hd]; [eauto |].
      specialize (Ht d Hd). unfold edge_inserts in Ht.
      destruct (i =? ia), (type g), (i =? ib); simpl in Ht;
        repeat (destruct Ht as [<- | Ht]; [lia |]); contradiction. }
  split; [exact Hok' |]. split; [exact L |]. split; [exact Hsz |].
  exact (proj2 (graph_ok_wf g' Hok')).
Qed.

Lemma Graph_AddEdge_keeps_well_formed_witness :
  exists g',
    Graph_AddEdge grafo 900 100 = Ok (g', true) /\
    graph_ok g' = true /\
    len g' = len grafo.
Proof.
  destruct (Graph_AddEdge_keeps_well_formed grafo 900 100 8 0 eq_refl eq_refl eq_refl)
    as (g' & Hrun & Hok & Hl & _).
  exists g'. auto.
Defined.

(** ** [Graph_Print] *)

Lemma only_cursors_refl (g : Graph) : only_cursors g g.
Proof.
  unfold only_cursors. repeat split; auto. intros i.
  destruct (load g i); auto using same_but_cursor_refl.
Qed.

Lemma only_cursors_store (g0 g : Graph) (i : Z) (x y : Vertex) :
  only_cursors g0 g -> load g i = Ok x -> same_but_cursor x y ->
  only_cursors g0 (store g i y).
Proof.
  intros (S & L & T & H) Hx Hxy. pose proof (aload_bound _ _ _ Hx).
  split; [exact S |]. split; [exact L |]. split; [exact T |].
  intros j. specialize (H j). destruct (Z.eq_dec i j) as [<- | Hne].
  - rewrite (load_store_eq _ _ y _ Hx). rewrite Hx in H.
    destruct (load g0 i); [| contradiction].
    eapply same_but_cursor_trans; eassumption.
  - rewrite load_store_ne by (lia || congruence). exact H.
Qed.

Lemma only_cursors_key (g0 g : Graph) (i : Z) :
  only_cursors g0 g -> key_at g i = key_at g0 i.
Proof.
  intros (_ & _ & _ & H). specialize (H i). unfold key_at.
  destruct (load g0 i), (load g i); try contradiction; [| reflexivity].
  apply H.
Qed.

Lemma only_cursors_load (g0 g : Graph) (i : Z) (x : Vertex) :
  only_cursors g0 g -> load g0 i = Ok x ->
  exists y, load g i = Ok y /\ same_but_cursor x y.
Proof.
  intros (_ & _ & _ & H) Hx. specialize (H i). rewrite Hx in H.
  destruct (load g i) as [y|]; [now exists y | contradiction].
Qed.

Lemma skipn_nth_cons {A : Type} (l : list A) (n : nat) (d : A) :
  nth_error l n = Some d -> skipn n l = d :: skipn (S n) l.
Proof.
  revert n. induction l as [|a l IH]; intros [|n] H; simpl in *; try discriminate.
  - now injection H as ->.
  - now apply IH.
Qed.

Lemma print_neighbors_run (g0 : Graph) (i : Z) (k : nat) :
  forall g x,
  only_cursors g0 g -> load g i = Ok x ->
  Vertex_HasNeighbors x = true ->
  (forall d, In d (entries x) -> exists n, load g0 (index d) = Ok n) ->
  (cursor_of x <= length (entries x))%nat ->
  (length (entries x) < k + cursor_of x)%nat ->
  exists g',
    print_neighbors k g i =
      Ok (g', map (fun d => key_at g0 (index d)) (skipn (cursor_of x) (entries x))) /\
    only_cursors g0 g'.
Proof.
  induction k as [|k IH]; intros g x Hoc Hx Hhas Hloads Hc Hk; [lia |].
  cbn [print_neighbors]. rewrite Hx. cbn [bind].
  unfold Vertex_HasNeighbors in Hhas.
  destruct (neighbors x) as [l|] eqn:Hl; [| discriminate].
  assert (He : entries x = items l) by (unfold entries; now rewrite Hl).
  assert (Hcu : cursor_of x = cursor l) by (unfold cursor_of; now rewrite Hl).
  unfold Vertex_End. rewrite Hl. cbn [bind]. unfold List_Cursor_end.
  rewrite <- He, <- Hcu.
  destruct (Nat.leb_spec (length (entries x)) (cursor_of x)) as [Hend | Hmore].
  - exists g. rewrite skipn_all2 by lia. split; [reflexivity | exact Hoc].
  - unfold Vertex_GetNeighborIndex. rewrite Hl. unfold List_Cursor_get.
    rewrite <- He, <- Hcu.
    destruct (nth_error (entries x) (cursor_of x)) as [d|] eqn:Hd;
      [| apply nth_error_None in Hd; lia].
    cbn [bind].
    destruct (Hloads d (nth_error_In _ _ Hd)) as [n0 Hn0].
    destruct (only_cursors_load _ _ _ _ Hoc Hn0) as (n & Hn & Hsbc).
    rewrite Hn. cbn [bind].
    assert (Hmore' : (cursor l < length (items l))%nat)
      by (rewrite <- He, <- Hcu; exact Hmore).
    assert (Hk' : (length (items l) < S k + cursor l)%nat)
      by (rewrite <- He, <- Hcu; exact Hk).
    assert (Hnext : Vertex_Next x =
                    Ok (set_neighbors x (Some {| items := items l; cursor := S (cursor l) |})))
      by (apply Vertex_Next_run; [exact Hl | exact Hmore']).
    rewrite (modifyM_run _ _ _ _ _ Hx Hnext). cbn [bind].
    set (x1 := set_neighbors x (Some {| items := items l; cursor := S (cursor l) |})).
    assert (Hsb : same_but_cursor x x1).
    { apply Vertex_Next_Ok in Hnext. apply Hnext. }
    destruct (IH (store g i x1) x1) as (g' & Hrun & Hoc').
    + eapply only_cursors_store; eassumption.
    + eapply load_store_eq; eassumption.
    + reflexivity.
    + intros d' Hd'. apply Hloads. rewrite He. exact Hd'.
    + unfold x1, cursor_of, entries. simpl. lia.
    + unfold x1, cursor_of, entries. simpl. lia.
    + assert (Hc1 : cursor_of x1 = S (cursor_of x))
        by (unfold x1, cursor_of; simpl; now rewrite Hl).
      assert (He1 : entries x1 = entries x)
        by (unfold x1, entries; simpl; now rewrite Hl).
      rewrite Hc1, He1 in Hrun.
      exists g'. rewrite Hrun. cbn [bind]. split; [| exact Hoc'].
      rewrite (skipn_nth_cons _ _ _ Hd). cbn [map].
      assert (data n = key_at g0 (index d)) as ->.
      { unfold key_at. rewrite Hn0. apply Hsbc. }
      reflexivity.
Qed.

Lemma Graph_Print_loop_run (g0 : Graph) (n : nat) :
  storage_ok g0 = true ->
  (forall i x w, 0 <= i < len g0 -> load g0 i = Ok x ->
                 In w (neighbor_indices x) -> 0 <= w < size g0) ->
  forall i g,
  only_cursors g0 g -> 0 <= i -> i + Z.of_nat n <= len g0 ->
  exists g',
    Graph_Print_loop n i g = Ok (g', map (line_of g0) (slots_from i n)) /\
    only_cursors g0 g'.
Proof.
  intros Hs Hidx. pose proof (storage_ok_spec g0 Hs) as [Hlen Hrange].
  induction n as [|n IH]; intros i g Hoc Hi Hn.
  - exists g. split; [reflexivity | exact Hoc].
  - cbn [Graph_Print_loop].
    destruct (aload_in_range (vertices g0) i ltac:(lia)) as [x0 Hx0].
    change (load g0 i = Ok x0) in Hx0.
    destruct (only_cursors_load _ _ _ _ Hoc Hx0) as (x & Hx & Hsbc).
    rewrite Hx. cbn [bind].
    assert (Hent : entries x = entries x0)
      by (destruct Hsbc as (Hsh & _); now apply same_shape_entries).
    assert (Hloads : forall d, In d (entries x) -> exists m, load g0 (index d) = Ok m).
    { intros d Hd. rewrite Hent in Hd.
      assert (0 <= index d < size g0)
        by (apply (Hidx i x0); [lia | exact Hx0 | now apply in_map]).
      apply (aload_in_range (vertices g0)). lia. }
    assert (Hinner : exists g1,
      (if Vertex_HasNeighbors x then
         g <- modifyM g i Vertex_Start;;
         print_neighbors (S (neighbor_count x)) g i
       else Ok (g, [])) = Ok (g1, map (key_at g0) (indices_at g0 i)) /\
      only_cursors g0 g1).
    { assert (Hidx_at : indices_at g0 i = map index (entries x))
        by (unfold indices_at, adjacency; rewrite Hx0, Hent; reflexivity).
      destruct (Vertex_HasNeighbors x) eqn:Hhas.
      - unfold Vertex_HasNeighbors in Hhas.
        destruct (neighbors x) as [l|] eqn:Hl; [| discriminate].
        assert (Hstart : Vertex_Start x = Ok (set_neighbors x (Some (List_Cursor_front l))))
          by (unfold Vertex_Start; now rewrite Hl).
        rewrite (modifyM_run _ _ _ _ _ Hx Hstart). cbn [bind].
        set (xs := set_neighbors x (Some (List_Cursor_front l))).
        assert (Hes : entries xs = entries x)
          by (unfold xs, entries; simpl; now rewrite Hl).
        destruct (print_neighbors_run g0 i (S (neighbor_count x)) (store g i xs) xs)
          as (g1 & Hrun & Hoc1).
        + eapply only_cursors_store; [exact Hoc | exact Hx |].
          apply Vertex_Start_Ok in Hstart. apply Hstart.
        + eapply load_store_eq; eassumption.
        + reflexivity.
        + intros d Hd. apply Hloads. now rewrite <- Hes.
        + unfold xs, cursor_of. simpl. lia.
        + rewrite Hes. unfold neighbor_count, entries, xs, cursor_of. rewrite Hl.
          simpl. lia.
        + exists g1. split; [| exact Hoc1]. rewrite Hrun. do 2 f_equal.
          unfold xs at 1, cursor_of. simpl skipn. rewrite Hes, Hidx_at, map_map.
          reflexivity.
      - exists g. split; [| exact Hoc]. rewrite Hidx_at.
        unfold Vertex_HasNeighbors in Hhas. unfold entries.
        destruct (neighbors x); [discriminate | reflexivity]. }
    destruct Hinner as (g1 & Hrun1 & Hoc1). rewrite Hrun1. cbn [bind].
    destruct (IH (i + 1) g1 Hoc1 ltac:(lia) ltac:(lia)) as (g' & Hrun & Hoc').
    rewrite Hrun. cbn [bind]. exists g'. split; [| exact Hoc'].
    do 2 f_equal. unfold slots_from. cbn [seq map].
    rewrite Z2Nat.id by lia.
    replace (S (Z.to_nat i)) with (Z.to_nat (i + 1)) by lia.
    f_equal. unfold line_of. f_equal.
    unfold key_at. rewrite Hx0. apply Hsbc.
Qed.

(** On a graph whose adjacency entries name slots of the vertex array,
    [Graph_Print] prints one line for each populated vertex, in index order,
    with the index and the key of the vertex and the keys of its neighbors
    in the order of its adjacency list, each read from the slot the entry
    names, populated or not;
    it changes nothing in the graph but the cursors of the lists. *)
Theorem Graph_Print_lines (g : Graph) (depth : Z) :
  storage_ok g = true ->
  (forall i x w, 0 <= i < len g -> load g i = Ok x ->
                 In w (neighbor_indices x) -> 0 <= w < size g) ->
  exists g',
    Graph_Print g depth = Ok (g', adjacency_lines g) /\
    Z.of_nat (length (adjacency_lines g)) = len g /\
    only_cursors g g'.
Proof.
  intros Hs Hidx. pose proof (storage_ok_spec g Hs) as [_ Hrange].
  destruct (Graph_Print_loop_run g (Z.to_nat (len g)) Hs Hidx 0 g
              (only_cursors_refl g)) as (g' & Hrun & Hoc); [lia | lia |].
  exists g'. split; [exact Hrun |]. split; [| exact Hoc].
  unfold adjacency_lines, slots_from. rewrite !length_map, length_seq. lia.
Qed.

Lemma Graph_Print_lines_witness :
  exists g',
    Graph_Print grafo 0 = Ok (g', adjacency_lines grafo) /\
    nth_error (adjacency_lines grafo) 3
    = Some {| p_index := 3; p_key := 400; p_neighbors := [600; 800] |}.
Proof.
  destruct (Graph_Print_lines grafo 0 eq_refl) as (g' & Hrun & _).
  - intros i x w Hi Hx Hw.
    assert (Hok : graph_ok grafo = true) by reflexivity.
    destruct (graph_ok_wf grafo Hok) as [_ W].
    unfold neighbor_indices in Hw. apply in_map_iff in Hw as (d & <- & Hd).
    pose proof (W i x d Hi Hx Hd) as Hr.
    change (len grafo) with 9 in Hr. change (size grafo) with 9. exact Hr.
  - exists g'. split; [exact Hrun | reflexivity].
Defined.

(** ** The start key *)

(** [dfs_topol] with a start key that no populated vertex has: all the
    populated vertices are reset, [Graph_GetVertexByKey] returns NULL, and
    the run stops at the write through that pointer; no line is printed,
    and the vertex array is left as the reset loop made it. *)
Theorem dfs_topol_unknown_start (g : Graph) (start : Z) :
  storage_ok g = true ->
  Graph_GetVertexByKey g start = Ok None ->
  result (dfs_topol_visit g start) = Err InvalidAccess /\
  result (dfs_topol g start) = Err InvalidAccess /\
  forall i, 0 <= i < len g ->
    exists x, load g i = Ok x /\
              load (graph_left (dfs_topol g start)) i = Ok (reset_vertex x).
Proof.
  intros Hs Hnone. pose proof (storage_ok_spec g Hs) as [Hlen Hrange].
  destruct (dfs_topol_visit_null g start Hs Hnone) as (g0 & Hreset & -> & ->).
  split; [reflexivity |]. split; [reflexivity |].
  cbn [graph_left stops]. unfold Graph_GetLen in Hreset.
  destruct (dfs_topol_reset_runs (Z.to_nat (len g)) 0 g)
    as (g0' & Hreset' & _ & Hin & _); [lia | lia | lia |].
  rewrite Hreset in Hreset'. injection Hreset' as <-.
  intros i Hi. apply Hin. lia.
Qed.

Lemma dfs_topol_unknown_start_witness :
  storage_ok grafo = true /\
  Graph_GetVertexByKey grafo 150 = Ok None /\
  result (dfs_topol grafo 150) = Err InvalidAccess.
Proof.
  split; [reflexivity |]. split; [reflexivity |].
  apply (dfs_topol_unknown_start grafo 150 eq_refl eq_refl).
Defined.

(** ** What the traversal leaves alone *)

(** Whatever the start key, [dfs_topol] on a well-formed graph leaves the
    structure of the graph as it was: size, length and type, the key, the
    distance and the adjacency entries of every vertex, and so the result of
    every lookup by key; the graph it leaves is well-formed. *)
Theorem traverse_leaves_structure (g : Graph) (start : Z) :
  graph_ok g = true ->
  let g' := graph_left (dfs_topol g start) in
  size g' = size g /\ len g' = len g /\ type g' = type g /\
  (forall i x, load g i = Ok x ->
     exists y, load g' i = Ok y /\ data y = data x /\ entries y = entries x) /\
  (forall k, Graph_GetVertexByKey g' k = Graph_GetVertexByKey g k) /\
  graph_ok g' = true.
Proof.
  intros Hok g'. pose proof (graph_ok_storage g Hok) as Hs.
  pose proof (storage_ok_spec g Hs) as [Hlen Hrange].
  assert (E : evolves g g').
  { unfold g'. destruct (GetVertexByKey_total g start ltac:(lia)) as [[s|] Hk].
    - destruct (dfs_topol_visit_stops g start s Hok Hk)
        as (g1 & g2 & b & _ & E1 & _ & _ & -> & L & _).
      cbn [graph_left stops].
      eapply evolves_trans; [exact E1 | exact (later_evolves _ _ L)].
    - destruct (dfs_topol_visit_null g start Hs Hk) as (g0 & Hreset & _ & ->).
      cbn [graph_left stops]. unfold Graph_GetLen in Hreset.
      destruct (dfs_topol_reset_runs (Z.to_nat (len g)) 0 g)
        as (g0' & Hreset' & E0 & _); [lia | lia | lia |].
      rewrite Hreset in Hreset'. injection Hreset' as <-. exact E0. }
  pose proof E as (Hsz & L & T & A & B).
  split; [exact Hsz |]. split; [exact L |]. split; [exact T |].
  split; [| split].
  - intros i x Hx. destruct (A i x Hx) as (y & Hy & Hd & Hi).
    exists y. split; [exact Hy |]. split; [exact Hd |].
    apply same_shape_entries. now split.
  - intros k. now apply GetVertexByKey_evolves.
  - apply graph_ok_intro; [| exact (proj2 (wf_evolves _ _ E (graph_ok_wf g Hok)))].
    apply storage_ok_intro; [| lia].
    rewrite Hsz, <- Hlen. f_equal. apply loads_length. intros i. split.
    + intros [x Hx]. destruct (A i x Hx) as (y & Hy & _). now exists y.
    + intros [y Hy]. destruct (B i y Hy) as (x & Hx & _). now exists x.
Qed.

Lemma traverse_leaves_structure_witness :
  len (graph_left (dfs_topol grafo 100)) = len grafo /\
  Graph_GetVertexByKey (graph_left (dfs_topol grafo 100)) 900
  = Graph_GetVertexByKey grafo 900 /\
  graph_ok (graph_left (dfs_topol grafo 100)) = true.
Proof.
  destruct (traverse_leaves_structure grafo 100 eq_refl)
    as (_ & L & _ & _ & K & Hok).
  split; [exact L |]. split; [exact (K 900) | exact Hok].
Defined.
